(** * node-sharepoint-2013: the token cache and the paginated list reader

    A shallow embedding of [lib/sharepoint-token], [lib/sharepoint-lists]
    and [lib/sharepoint-files].  The three libraries are asynchronous
    JavaScript: every HTTP call and every token acquisition returns a
    promise that the environment settles later.  The embedding makes the
    environment explicit:

    - a chain of page requests is run against the responses the transport
      delivers to it, in delivery order; with no response left the chain's
      promise is still pending;
    - the fan-out over list items is run against a global trace of
      deliveries [(chain index, response)], so every interleaving of the
      concurrent chains is a trace;
    - the token cache is a state machine over the cache slot and the store
      of promise objects the identity provider has handed out. *)

From Stdlib Require Import ZArith String List Bool Lia DecimalString.
From stdpp Require Import base list strings.
Import ListNotations.

Set Warnings "-register-all".
Local Open Scope Z_scope.
Local Open Scope string_scope.
Local Open Scope list_scope.

(** ** JavaScript values *)

(** Parsed JSON bodies and the values the code builds from them.  Numbers
    are kept to the integers; property order is the list order. *)
Inductive JValue : Type :=
| JUndefined
| JNull
| JBool (b : bool)
| JNum (z : Z)
| JStr (s : string)
| JArr (elems : list JValue)
| JObj (props : list (string * JValue)).

(** What a promise is rejected with: the two failures of request-promise
    and the error the runtime raises inside a callback. *)
Inductive Reason : Type :=
| RequestError (cause : string)
| StatusCodeError (statusCode : Z) (body : JValue)
| TypeError (message : string).

(** A JavaScript expression either yields a value or throws. *)
Inductive Completion (A : Type) : Type :=
| Normal (a : A)
| Throw (e : Reason).
Arguments Normal {A} a.
Arguments Throw {A} e.

#[global] Instance completion_ret : MRet Completion := fun A a => Normal a.
#[global] Instance completion_bind : MBind Completion := fun A B k c =>
  match c with
  | Normal a => k a
  | Throw e => Throw e
  end.

(** ToBoolean. *)
Definition truthy (v : JValue) : bool :=
  match v with
  | JUndefined | JNull => false
  | JBool b => b
  | JNum z => negb (z =? 0)%Z
  | JStr s => negb (s =? "")%string
  | JArr _ | JObj _ => true
  end.

(** ToString, as a template literal or [+] applies it; for numbers, the
    decimal digits, which is what JavaScript prints below 10^21. *)
Fixpoint js_ToString (v : JValue) : string :=
  match v with
  | JUndefined => "undefined"
  | JNull => "null"
  | JBool true => "true"
  | JBool false => "false"
  | JNum z => NilZero.string_of_int (Z.to_int z)
  | JStr s => s
  | JArr elems =>
      (fix join (l : list JValue) : string :=
         match l with
         | [] => ""
         | x :: l' =>
             let sx := match x with
                       | JUndefined | JNull => ""
                       | _ => js_ToString x
                       end in
             match l' with
             | [] => sx
             | _ :: _ => sx +:+ "," +:+ join l'
             end
         end) elems
  | JObj _ => "[object Object]"
  end.

Fixpoint own_prop (name : string) (props : list (string * JValue)) : option JValue :=
  match props with
  | [] => None
  | (k, v) :: props' => if (k =? name)%string then Some v else own_prop name props'
  end.

(** [base.name] for the property names the libraries read ([d], [results],
    [__next], [Id]): none of them is inherited from a prototype, so the
    read is an own-property lookup on an object, [undefined] on any other
    value, and a TypeError on [undefined] and [null]. *)
Definition get_prop (base : JValue) (name : string) : Completion JValue :=
  match base with
  | JUndefined => Throw (TypeError ("Cannot read property '" +:+ name +:+ "' of undefined"))
  | JNull => Throw (TypeError ("Cannot read property '" +:+ name +:+ "' of null"))
  | JObj props =>
      Normal (match own_prop name props with Some v => v | None => JUndefined end)
  | _ => Normal JUndefined
  end.

Fixpoint put_own (name : string) (v : JValue) (props : list (string * JValue))
  : list (string * JValue) :=
  match props with
  | [] => [(name, v)]
  | (k, w) :: props' =>
      if (k =? name)%string then (k, v) :: props' else (k, w) :: put_own name v props'
  end.

(** [base.name = v] in strict mode (both libraries start with the
    directive): an object takes the property, a primitive throws.  An
    array is an object too; its elements are unchanged and the named
    property it gains is not represented. *)
Definition set_prop (base : JValue) (name : string) (v : JValue) : Completion JValue :=
  match base with
  | JObj props => Normal (JObj (put_own name v props))
  | JArr elems => Normal (JArr elems)
  | _ => Throw (TypeError ("Cannot create property '" +:+ name +:+ "'"))
  end.

(** [a.concat(part)]: an array argument is spread, anything else is
    appended as one element. *)
Definition js_concat (a : list JValue) (part : JValue) : list JValue :=
  match part with
  | JArr elems => a ++ elems
  | _ => a ++ [part]
  end.

(** [arr.reduce(f, init)]. *)
Definition js_reduce {A B} (f : B -> A -> B) (init : B) (arr : list A) : B :=
  fold_left f arr init.

(** ** Promises *)

Inductive PState (A : Type) : Type :=
| Pending
| Fulfilled (value : A)
| Rejected (reason : Reason).
Arguments Pending {A}.
Arguments Fulfilled {A} value.
Arguments Rejected {A} reason.

Definition settled {A} (p : PState A) : bool :=
  match p with
  | Pending => false
  | _ => true
  end.

Definition is_fulfilled {A} (p : PState A) : bool :=
  match p with
  | Fulfilled _ => true
  | _ => false
  end.

Definition is_rejected {A} (p : PState A) : bool :=
  match p with
  | Rejected _ => true
  | _ => false
  end.

(** [p.then(f)] where [f] may throw. *)
Definition then_ {A B} (p : PState A) (f : A -> Completion B) : PState B :=
  match p with
  | Pending => Pending
  | Fulfilled a =>
      match f a with
      | Normal b => Fulfilled b
      | Throw e => Rejected e
      end
  | Rejected e => Rejected e
  end.

(** [Promise.all(ps)] for promises that settle in list order (a resolved
    value first, then at most one chain): the first rejection wins, a
    pending member keeps the join pending, otherwise the values in order. *)
Fixpoint Promise_all {A} (ps : list (PState A)) : PState (list A) :=
  match ps with
  | [] => Fulfilled []
  | p :: ps' =>
      match p with
      | Rejected e => Rejected e
      | Pending =>
          match Promise_all ps' with
          | Rejected e => Rejected e
          | _ => Pending
          end
      | Fulfilled a =>
          match Promise_all ps' with
          | Fulfilled l => Fulfilled (a :: l)
          | Pending => Pending
          | Rejected e => Rejected e
          end
      end
  end.

#[global] Instance pstate_fmap : FMap PState := fun A B f p =>
  match p with
  | Pending => Pending
  | Fulfilled a => Fulfilled (f a)
  | Rejected e => Rejected e
  end.

(** ** The transport: request-promise *)

(** The options object handed to [rp]. *)
Record Request : Type := {
  uri : JValue;
  Accept : string;
  Authorization : string;
  strictSSL : bool;
  json : bool
}.

(** How the transport settles the promise of one request: the parsed body,
    or a RequestError / StatusCodeError.  A RequestError is also what [rp]
    rejects with by itself when it cannot use the URI it is given (a value
    that is not a URL); the entry then stands for that refusal, which no
    server takes part in. *)
Inductive Response : Type :=
| RpFulfilled (body : JValue)
| RpRejected (e : Reason).

(** The promise a library function returns, with the requests it has
    issued so far, oldest first. *)
Record Run (A : Type) : Type := {
  outcome : PState A;
  requests : list Request
}.
Arguments outcome {A} r.
Arguments requests {A} r.

(** ** lib/sharepoint-lists *)

Module SharepointLists.

(** [getArrayRecursively(apiUrl, accessToken)], run against the responses
    [rs] the transport delivers to this chain, in order.  The first
    response settles the request for [apiUrl]; the remaining ones go to the
    recursive call on [__next].  The recursion is on the responses: a
    server that keeps sending [__next] keeps the promise pending. *)
Fixpoint getArrayRecursively (rs : list Response) (apiUrl : JValue) (accessToken : string)
  {struct rs} : Run (list JValue) :=
  let options := {| uri := apiUrl;
                    Accept := "application/json;odata=verbose";
                    Authorization := "Bearer " +:+ accessToken;
                    strictSSL := false;
                    json := true |} in
  match rs with
  | [] => {| outcome := Pending; requests := [options] |}
  | RpRejected e :: _ => {| outcome := Rejected e; requests := [options] |}
  | RpFulfilled apiResponse :: rs' =>
      match (d ← get_prop apiResponse "d";
             results ← get_prop d "results";
             d' ← get_prop apiResponse "d";
             next ← get_prop d' "__next";
             mret (results, next)) with
      | Throw e => {| outcome := Rejected e; requests := [options] |}
      | Normal (results, next) =>
          (* Recursively load next part of rows *)
          let pushed :=
            if truthy next then [getArrayRecursively rs' next accessToken] else [] in
          let promises :=
            Fulfilled results :: map (fun r => JArr <$> outcome r) pushed in
          {| outcome :=
               then_ (Promise_all promises) (fun responses =>
                 (* Merge all parts of rows together *)
                 Normal (js_reduce (fun finalArray part => js_concat finalArray part)
                                   [] responses));
             requests := options :: concat (map requests pushed) |}
      end
  end.

Definition findAllLists (rs : list Response)
  (sharepointResourceUrl siteName accessToken : string) : Run (list JValue) :=
  let apiUrl := sharepointResourceUrl +:+ "/sites/" +:+ siteName +:+ "/_api/Web/Lists" in
  getArrayRecursively rs (JStr apiUrl) accessToken.

Definition getList (rs : list Response)
  (sharepointResourceUrl siteName listGuid accessToken : string) : Run (list JValue) :=
  let apiUrl := sharepointResourceUrl +:+ "/sites/" +:+ siteName
                +:+ "/_api/Web/Lists(guid'" +:+ listGuid +:+ "')/Items" in
  getArrayRecursively rs (JStr apiUrl) accessToken.

Definition getListAttachmentFiles (rs : list Response)
  (sharepointResourceUrl siteName listGuid : string) (listItemId : JValue)
  (accessToken : string) : Run (list JValue) :=
  let apiUrl := sharepointResourceUrl +:+ "/sites/" +:+ siteName
                +:+ "/_api/Web/Lists(guid'" +:+ listGuid +:+ "')/Items("
                +:+ js_ToString listItemId +:+ ")/AttachmentFiles" in
  getArrayRecursively rs (JStr apiUrl) accessToken.

Definition getListItemAttachmentFileUrl
  (sharepointResourceUrl siteName listGuid : string) (listItemId : JValue)
  (attachmentFilename : string) : string :=
  sharepointResourceUrl +:+ "/sites/" +:+ siteName
  +:+ "/_api/Web/Lists(guid'" +:+ listGuid +:+ "')/Items("
  +:+ js_ToString listItemId +:+ ")/AttachmentFiles('" +:+ attachmentFilename
  +:+ "')/$value".

(** *** getListWithAttachmentFiles

    After [getList] has fulfilled with [sharepointList], the [map] callback
    starts one [getListAttachmentFiles] chain per item, all at once.  From
    then on the environment is a trace of deliveries [(i, response)]: the
    transport answers the request chain [i] has in flight.  A chain whose
    promise settles on a delivery runs its [then] callback at that point,
    so the callbacks run in completion order, whatever that order is. *)

(** One per-item chain: the [Id] its callback read from the item, the
    responses delivered to it so far, and the promise the [map] callback
    returned (the chain followed by the assignment). *)
Record Chain : Type := {
  listItemId : JValue;
  delivered : list Response;
  subPromise : PState JValue
}.

Record FanOut : Type := {
  sharepointList : list JValue;   (* element [i] is the object callback [i] assigns to *)
  chains : list Chain;
  joined : PState (list JValue)   (* Promise.all(subPromises) *)
}.

(** [Promise.all(subPromises)] reacting to one member settling: while it is
    pending, a rejection rejects it at once and the last fulfilment
    fulfils it; once settled it stays as it is. *)
Definition join (joined : PState (list JValue)) (subPromises : list (PState JValue))
  (justSettled : PState JValue) : PState (list JValue) :=
  match joined with
  | Pending =>
      match justSettled with
      | Rejected e => Rejected e
      | _ => Promise_all subPromises
      end
  | _ => joined
  end.

Definition settle_sub (i : nat) (c : Chain) (p : PState JValue)
  (sharepointList' : list JValue) (st : FanOut) : FanOut :=
  let chains' := <[i := {| listItemId := listItemId c;
                           delivered := delivered c;
                           subPromise := p |}]> (chains st) in
  {| sharepointList := sharepointList';
     chains := chains';
     joined := join (joined st) (subPromise <$> chains') p |}.

Section FanOut.
Variables sharepointResourceUrl siteName listGuid accessToken : string.

(** The transport delivers [response] to chain [i].  The promise of a chain
    is a function of the responses delivered to it, so the delivery settles
    the chain iff the promise was pending before and is not after; the
    [then] callback runs at that point: it assigns [AttachmentFiles] on the
    item, or the rejection passes through.  A delivery that finds the chain
    settled answers no request and changes nothing but the record of what
    was delivered. *)
Definition deliver (st : FanOut) (ev : nat * Response) : FanOut :=
  let '(i, response) := ev in
  match sharepointList st !! i, chains st !! i with
  | Some sharepointListItem, Some c =>
      let sub rs := outcome (getListAttachmentFiles rs sharepointResourceUrl siteName
                               listGuid (listItemId c) accessToken) in
      let c' := {| listItemId := listItemId c;
                   delivered := delivered c ++ [response];
                   subPromise := subPromise c |} in
      match sub (delivered c), sub (delivered c ++ [response]) with
      | Pending, Fulfilled attachmentFiles =>
          match set_prop sharepointListItem "AttachmentFiles" (JArr attachmentFiles) with
          | Normal assigned =>
              settle_sub i c' (Fulfilled JUndefined)
                (<[i := assigned]> (sharepointList st)) st
          | Throw e => settle_sub i c' (Rejected e) (sharepointList st) st
          end
      | Pending, Rejected e => settle_sub i c' (Rejected e) (sharepointList st) st
      | _, _ =>
          {| sharepointList := sharepointList st;
             chains := <[i := c']> (chains st);
             joined := joined st |}
      end
  | _, _ => st
  end.

(** The [map] callback on one item: reads [Id] and starts the chain. *)
Definition start_chain (sharepointListItem : JValue) : Completion Chain :=
  id ← get_prop sharepointListItem "Id";
  mret {| listItemId := id; delivered := []; subPromise := Pending |}.

Definition getListWithAttachmentFiles
  (listResponses : list Response) (deliveries : list (nat * Response))
  : PState (list JValue) :=
  match outcome (getList listResponses sharepointResourceUrl siteName listGuid
                   accessToken) with
  | Pending => Pending
  | Rejected e => Rejected e
  | Fulfilled sharepointList0 =>
      match mapM start_chain sharepointList0 with
      | Throw e => Rejected e
      | Normal chains0 =>
          let st0 := {| sharepointList := sharepointList0;
                        chains := chains0;
                        joined := Promise_all (subPromise <$> chains0) |} in
          let st := fold_left deliver deliveries st0 in
          (* After all attachments load, return whole structure. *)
          then_ (joined st) (fun _ => Normal (sharepointList st))
      end
  end.
End FanOut.

End SharepointLists.

(** ** lib/sharepoint-files *)

Module SharepointFiles.

(** The promise of one [rp] call, given the responses delivered to it. *)
Definition rp (rs : list Response) (options : Request) : PState JValue :=
  match rs with
  | [] => Pending
  | RpFulfilled body :: _ => Fulfilled body
  | RpRejected e :: _ => Rejected e
  end.

Definition callApi (rs : list Response) (apiUrl accessToken : string) : Run JValue :=
  let options := {| uri := JStr apiUrl;
                    Accept := "application/json;odata=verbose";
                    Authorization := "Bearer " +:+ accessToken;
                    strictSSL := false;
                    json := true |} in
  {| outcome := then_ (rp rs options) (fun apiResponse =>
                  d ← get_prop apiResponse "d"; get_prop d "results");
     requests := [options] |}.

(** [folderPath.indexOf(s) === 0] is the prefix test. *)
Definition getSubfolders (rs : list Response)
  (sharepointResourceUrl siteName folderPath accessToken : string) : Run JValue :=
  let _folderPath :=
    (if String.prefix ("/sites/" +:+ siteName) folderPath
     then "" else "/sites/" +:+ siteName +:+ "/") +:+ folderPath in
  let apiUrl := sharepointResourceUrl +:+ "/sites/" +:+ siteName
                +:+ "/_api/Web/GetFolderByServerRelativeUrl('" +:+ _folderPath
                +:+ "')/Folders" in
  callApi rs apiUrl accessToken.

Definition getFiles (rs : list Response)
  (sharepointResourceUrl siteName folderPath accessToken : string) : Run JValue :=
  let _folderPath :=
    (if String.prefix ("/sites/" +:+ siteName) folderPath
     then "" else "/sites/" +:+ siteName +:+ "/") +:+ folderPath in
  let apiUrl := sharepointResourceUrl +:+ "/sites/" +:+ siteName
                +:+ "/_api/Web/GetFolderByServerRelativeUrl('" +:+ _folderPath
                +:+ "')/Files" in
  callApi rs apiUrl accessToken.

End SharepointFiles.

(** ** lib/sharepoint-token *)

Module SharepointToken.

Record SharepointSourceConfig : Type := {
  sharepointAuthorityHostUrl : string;
  sharepointTenant : string;
  sharepointResourceUrl : string;
  sharepointClientId : string;
  sharepointUserId : string;
  sharepointUserSecret : string
}.

Record TokenResponse : Type := {
  tokenType : string;
  expiresIn : Z;
  expiresOn : string;
  resource : string;
  accessToken : string;
  isMRRT : bool
}.

(** A Bluebird promise of a token response. *)
Inductive TokenPromise : Type :=
| TPending
| TFulfilled (value : TokenResponse)
| TRejected (error : string)
| TCancelled.

Definition isFulfilled (p : TokenPromise) : bool :=
  match p with TFulfilled _ => true | _ => false end.
Definition isRejected (p : TokenPromise) : bool :=
  match p with TRejected _ => true | _ => false end.
Definition isCancelled (p : TokenPromise) : bool :=
  match p with TCancelled => true | _ => false end.

(** One call of [acquireTokenWithUsernamePasswordAsync] on the
    authentication context of [authority]. *)
Record AcquireRequest : Type := {
  authority : string;
  acq_resource : string;
  acq_userId : string;
  acq_userSecret : string;
  acq_clientId : string
}.

(** The closure state of one factory call.  A promise object is named by
    its index in [promises], the store of the promises the identity
    provider has returned; [tokenRequestPromise] is [null] or one of them. *)
Record State : Type := {
  tokenRequestPromise : option nat;
  promises : list TokenPromise;
  acquisitions : list AcquireRequest
}.

Definition initial : State :=
  {| tokenRequestPromise := None; promises := []; acquisitions := [] |}.

(** The promise object behind a reference. *)
Definition deref (st : State) (p : nat) : TokenPromise :=
  default TPending (promises st !! p).

Section Factory.
Variable sharepointConfig : SharepointSourceConfig.
(** [Date.parse]: the time value in milliseconds, [None] for NaN. *)
Variable Date_parse : string -> option Z.

(** [now > Date.parse(expiresOn) + 30000]; a comparison with NaN is false. *)
Definition tokenExpired (now : Z) (value : TokenResponse) : bool :=
  match Date_parse (expiresOn value) with
  | Some t => now >? t + 30000
  | None => false
  end.

(** The arguments of the one call [getToken] makes to the provider. *)
Definition tokenRequest : AcquireRequest :=
  {| authority := sharepointAuthorityHostUrl sharepointConfig +:+ "/"
                  +:+ sharepointTenant sharepointConfig;
     acq_resource := sharepointResourceUrl sharepointConfig;
     acq_userId := sharepointUserId sharepointConfig;
     acq_userSecret := sharepointUserSecret sharepointConfig;
     acq_clientId := sharepointClientId sharepointConfig |}.

(** The call to the identity provider: it returns a new promise, which
    becomes the cached one. *)
Definition acquire (st : State) : nat * State :=
  let p := length (promises st) in
  (p, {| tokenRequestPromise := Some p;
         promises := promises st ++ [TPending];
         acquisitions := acquisitions st ++ [tokenRequest] |}).

(** [getToken()] called at time [now] (the value of
    [new Date().getTime()]); returns the promise and the new state. *)
Definition getToken (now : Z) (st : State) : nat * State :=
  let st1 :=
    match tokenRequestPromise st with
    | Some p =>
        match deref st p with
        | TFulfilled value =>
            if tokenExpired now value
            then {| tokenRequestPromise := None;
                    promises := promises st;
                    acquisitions := acquisitions st |}
            else st
        | _ => st
        end
    | None => st
    end in
  match tokenRequestPromise st1 with
  | None => acquire st1
  | Some p =>
      if isCancelled (deref st1 p) || isRejected (deref st1 p)
      then acquire st1
      else (p, st1)
  end.

Definition dropToken (st : State) : State :=
  {| tokenRequestPromise := None;
     promises := promises st;
     acquisitions := acquisitions st |}.

(** What can happen to the cache: a call of either function, or the
    identity provider settling one of its pending promises. *)
Inductive Event : Type :=
| CallGetToken (now : Z)
| CallDropToken
| Settle (p : nat) (result : TokenPromise).

Definition settle (p : nat) (result : TokenPromise) (st : State) : State :=
  match promises st !! p, result with
  | Some TPending, (TFulfilled _ | TRejected _ | TCancelled) =>
      {| tokenRequestPromise := tokenRequestPromise st;
         promises := <[p := result]> (promises st);
         acquisitions := acquisitions st |}
  | _, _ => st
  end.

(** Runs a trace; returns the promises the [getToken] calls returned, in
    call order, and the final state. *)
Fixpoint run (evs : list Event) (st : State) : list nat * State :=
  match evs with
  | [] => ([], st)
  | CallGetToken now :: evs' =>
      let '(p, st') := getToken now st in
      let '(ps, st'') := run evs' st' in
      (p :: ps, st'')
  | CallDropToken :: evs' => run evs' (dropToken st)
  | Settle p result :: evs' => run evs' (settle p result st)
  end.
End Factory.

(** What may happen while the acquisition behind promise [p] is in flight:
    any call of [getToken], and any other promise settling. *)
Definition in_window (p : nat) (ev : Event) : Prop :=
  match ev with
  | CallGetToken _ => True
  | CallDropToken => False
  | Settle q _ => q <> p
  end.

Definition is_getToken (ev : Event) : bool :=
  match ev with
  | CallGetToken _ => true
  | _ => false
  end.

End SharepointToken.

(** ** Vocabulary of the statements *)

Import SharepointLists.

(** The options [getArrayRecursively] and [callApi] build for a URL. *)
Definition request_for (apiUrl : JValue) (accessToken : string) : Request :=
  {| uri := apiUrl;
     Accept := "application/json;odata=verbose";
     Authorization := "Bearer " +:+ accessToken;
     strictSSL := false;
     json := true |}.

(** A body whose [d] member holds [results] and [__next] ([undefined] when
    the member is absent). *)
Definition envelope (apiResponse results next : JValue) : Prop :=
  exists d, get_prop apiResponse "d" = Normal d /\
            get_prop d "results" = Normal results /\
            get_prop d "__next" = Normal next.

(** [page_chain bodies itemss nexts]: the bodies of N pages, the items of
    each, and the continuation pointers of pages 1..N-1; page N has none. *)
Inductive page_chain : list JValue -> list (list JValue) -> list JValue -> Prop :=
| chain_last apiResponse items next :
    envelope apiResponse (JArr items) next ->
    truthy next = false ->
    page_chain [apiResponse] [items] []
| chain_next apiResponse items next bodies itemss nexts :
    envelope apiResponse (JArr items) next ->
    truthy next = true ->
    page_chain bodies itemss nexts ->
    page_chain (apiResponse :: bodies) (items :: itemss) (next :: nexts).

(** Pages that carry a continuation pointer, whatever their [results]. *)
Inductive followed : list JValue -> list JValue -> Prop :=
| followed_nil : followed [] []
| followed_cons apiResponse results next bodies nexts :
    envelope apiResponse results next ->
    truthy next = true ->
    followed bodies nexts ->
    followed (apiResponse :: bodies) (next :: nexts).

(** A response that fails the fetch in progress, and the reason: the
    transport rejects, or reading [apiResponse.d.results] throws. *)
Inductive fails_with : Response -> Reason -> Prop :=
| fails_transport e : fails_with (RpRejected e) e
| fails_reading apiResponse e :
    (d ← get_prop apiResponse "d"; get_prop d "results") = Throw e ->
    fails_with (RpFulfilled apiResponse) e.

Definition nullish (v : JValue) : bool :=
  match v with
  | JUndefined | JNull => true
  | _ => false
  end.

(** An envelope without one of the members the reader expects: no [d], or
    a [d] without [results]. *)
Definition missing_field (apiResponse : JValue) : bool :=
  match get_prop apiResponse "d" with
  | Normal d =>
      match get_prop d "results" with
      | Normal JUndefined => true
      | Normal _ => false
      | Throw _ => true
      end
  | Throw _ => true
  end.

Definition is_object (v : JValue) : bool :=
  match v with
  | JObj _ => true
  | _ => false
  end.

(** The responses a trace delivers to chain [i], in delivery order. *)
Fixpoint responses_for (i : nat) (deliveries : list (nat * Response)) : list Response :=
  match deliveries with
  | [] => []
  | (j, response) :: deliveries' =>
      if (j =? i)%nat then response :: responses_for i deliveries'
      else responses_for i deliveries'
  end.

(** *** The invariant of the fan-out

    [items] is the list [getList] fulfilled with, [deliveries] the trace so
    far.  Chain [i] has been given exactly the responses the trace holds
    for it; its item carries the assignment iff the chain has fulfilled;
    and the join is settled the way its members are. *)
Section FanOutInvariant.
Variables sharepointResourceUrl siteName listGuid accessToken : string.

(** The promise of the chain of one item, given its responses. *)
Definition subFetch (id : JValue) (rs : list Response) : PState (list JValue) :=
  outcome (getListAttachmentFiles rs sharepointResourceUrl siteName listGuid
             id accessToken).

(** The item as the callback of its chain leaves it. *)
Definition assigned (item : JValue) (o : PState (list JValue)) : JValue :=
  match o with
  | Fulfilled attachmentFiles =>
      match set_prop item "AttachmentFiles" (JArr attachmentFiles) with
      | Normal item' => item'
      | Throw _ => item
      end
  | _ => item
  end.

(** The promise the [map] callback returned for the item. *)
Definition callback_promise (item : JValue) (o : PState (list JValue))
  : PState JValue :=
  then_ o (fun attachmentFiles =>
    _ ← set_prop item "AttachmentFiles" (JArr attachmentFiles); mret JUndefined).

Definition agree {A} (j a : PState A) : Prop :=
  match j, a with
  | Pending, Pending => True
  | Fulfilled x, Fulfilled y => x = y
  | Rejected _, Rejected _ => True
  | _, _ => False
  end.

Record fanout_inv (items : list JValue) (deliveries : list (nat * Response))
  (st : FanOut) : Prop := {
  inv_list_length : length (sharepointList st) = length items;
  inv_chains_length : length (chains st) = length items;
  inv_chain : forall i item, items !! i = Some item ->
    exists id,
      get_prop item "Id" = Normal id /\
      chains st !! i =
        Some {| listItemId := id;
                delivered := responses_for i deliveries;
                subPromise :=
                  callback_promise item (subFetch id (responses_for i deliveries)) |} /\
      sharepointList st !! i =
        Some (assigned item (subFetch id (responses_for i deliveries)));
  inv_joined : agree (joined st) (Promise_all (subPromise <$> chains st))
}.
End FanOutInvariant.

(** ** A worked scenario

    A list of three items on two pages; item 1 has two attachments (on two
    pages of its own), item 2 none, item 3 one. *)
Module Scenario.

Definition item (id : Z) (title : string) : JValue :=
  JObj [("Id", JNum id); ("Title", JStr title)].

Definition file (name : string) : JValue := JObj [("FileName", JStr name)].

(** The verbose OData envelope of one page. *)
Definition page (results : list JValue) (next : option string) : JValue :=
  JObj [("d", JObj (("results", JArr results)
                    :: match next with
                       | Some u => [("__next", JStr u)]
                       | None => []
                       end))].

Definition items : list JValue := [item 1 "a"; item 2 "b"; item 3 "c"].

Definition listResponses : list Response :=
  [RpFulfilled (page [item 1 "a"; item 2 "b"] (Some "https://sp/next"));
   RpFulfilled (page [item 3 "c"] None)].

Definition attachmentFiles (i : nat) : list JValue :=
  match i with
  | 0%nat => [file "w1.pdf"; file "w2.pdf"]
  | 2%nat => [file "w3.pdf"]
  | _ => []
  end.

(** The chains complete in the order 3, 2, 1. *)
Definition deliveries : list (nat * Response) :=
  [(2%nat, RpFulfilled (page [file "w3.pdf"] None));
   (0%nat, RpFulfilled (page [file "w1.pdf"] (Some "https://sp/more")));
   (1%nat, RpFulfilled (page [] None));
   (0%nat, RpFulfilled (page [file "w2.pdf"] None))].

(** The same, but the chain of item 2 fails. *)
Definition failing_deliveries : list (nat * Response) :=
  [(2%nat, RpFulfilled (page [file "w3.pdf"] None));
   (1%nat, RpRejected (StatusCodeError 503 JNull));
   (0%nat, RpFulfilled (page [file "w1.pdf"] None))].

Definition config : SharepointToken.SharepointSourceConfig :=
  {| SharepointToken.sharepointAuthorityHostUrl := "https://login.microsoftonline.com";
     SharepointToken.sharepointTenant := "tenant";
     SharepointToken.sharepointResourceUrl := "https://sp";
     SharepointToken.sharepointClientId := "client";
     SharepointToken.sharepointUserId := "user";
     SharepointToken.sharepointUserSecret := "secret" |}.

(** A [Date.parse] that knows one date. *)
Definition Date_parse (s : string) : option Z :=
  if (s =? "2016-06-16T10:00:00.000Z")%string then Some 1466071200000 else None.

Definition token : SharepointToken.TokenResponse :=
  {| SharepointToken.tokenType := "Bearer";
     SharepointToken.expiresIn := 3599;
     SharepointToken.expiresOn := "2016-06-16T10:00:00.000Z";
     SharepointToken.resource := "https://sp";
     SharepointToken.accessToken := "eyJ0";
     SharepointToken.isMRRT := true |}.

(** The cache holding promise 0 in state [tp]. *)
Definition cached (tp : SharepointToken.TokenPromise) : SharepointToken.State :=
  {| SharepointToken.tokenRequestPromise := Some 0%nat;
     SharepointToken.promises := [tp];
     SharepointToken.acquisitions := [SharepointToken.tokenRequest config] |}.

End Scenario.

(** ** Vocabulary of the further properties *)

(** [any_chain bodies resultss nexts]: as [page_chain], but the [results]
    member of a page may be any value, an array or not. *)
Inductive any_chain : list JValue -> list JValue -> list JValue -> Prop :=
| any_last apiResponse results next :
    envelope apiResponse results next ->
    truthy next = false ->
    any_chain [apiResponse] [results] []
| any_next apiResponse results next bodies resultss nexts :
    envelope apiResponse results next ->
    truthy next = true ->
    any_chain bodies resultss nexts ->
    any_chain (apiResponse :: bodies) (results :: resultss) (next :: nexts).

(** The part of a request that does not depend on the URL. *)
Definition sent_with (accessToken : string) (r : Request) : Prop :=
  Accept r = "application/json;odata=verbose" /\
  Authorization r = "Bearer " +:+ accessToken /\
  strictSSL r = false /\
  json r = true.

(** The join never rejects with a reason of its own: a rejected join
    carries the reason of one of its members. *)
Definition join_sound (st : FanOut) : Prop :=
  forall e, joined st = Rejected e ->
    exists i c, chains st !! i = Some c /\ subPromise c = Rejected e.

Section TokenVocabulary.
Import SharepointToken.
Variable Date_parse : string -> option Z.

(** A promise [getToken] may hand out at time [now]: pending, or fulfilled
    with a token that has not expired. *)
Definition usable (now : Z) (tp : TokenPromise) : bool :=
  match tp with
  | TPending => true
  | TFulfilled value => negb (tokenExpired Date_parse now value)
  | TRejected _ | TCancelled => false
  end.

(** At most one acquisition is in flight, and it is the cached one. *)
Definition single_flight (st : State) : Prop :=
  forall q, promises st !! q = Some TPending -> tokenRequestPromise st = Some q.

Definition is_dropToken (ev : Event) : bool :=
  match ev with
  | CallDropToken => true
  | _ => false
  end.
End TokenVocabulary.

(** * Theorems *)

(** ** The page fetcher *)
Lemma getArrayRecursively_envelope apiResponse results next rs apiUrl accessToken :
  envelope apiResponse results next ->
  getArrayRecursively (RpFulfilled apiResponse :: rs) apiUrl accessToken =
  let pushed := if truthy next then [getArrayRecursively rs next accessToken] else [] in
  {| outcome :=
       then_ (Promise_all (Fulfilled results :: map (fun r => JArr <$> outcome r) pushed))
         (fun responses => Normal (js_reduce js_concat [] responses));
     requests := request_for apiUrl accessToken :: concat (map requests pushed) |}.
Proof.
  intros (d & Hd & Hres & Hnext).
  cbn [getArrayRecursively]. rewrite Hd. cbn [mbind completion_bind].
  rewrite Hres. cbn [mbind completion_bind]. rewrite Hnext. reflexivity.
Qed.

Lemma merge_last (results : list JValue) :
  js_reduce js_concat [] [JArr results] = results.
Proof. reflexivity. Qed.

Lemma merge_two (results rest : list JValue) :
  js_reduce js_concat [] [JArr results; JArr rest] = results ++ rest.
Proof. reflexivity. Qed.

(** C8: a first response that is a single page without a continuation
    pointer ([__next] absent or otherwise falsy) fulfils the promise with
    that page's items, unchanged, and the only request issued is the one
    for [apiUrl]: no follow-up fetch, whatever else the transport holds. *)
Theorem getArrayRecursively_single_page apiResponse items next rs apiUrl accessToken :
  envelope apiResponse (JArr items) next ->
  truthy next = false ->
  outcome (getArrayRecursively (RpFulfilled apiResponse :: rs) apiUrl accessToken)
    = Fulfilled items /\
  requests (getArrayRecursively (RpFulfilled apiResponse :: rs) apiUrl accessToken)
    = [request_for apiUrl accessToken].
Proof.
  intros Henv Hnext.
  rewrite (getArrayRecursively_envelope _ _ _ _ _ _ Henv), Hnext.
  split; reflexivity.
Qed.

(** C1: for every chain of N pages where pages 1..N-1 carry a continuation
    pointer and page N does not, the fetcher fulfils with the items of
    page 1, then page 2, ..., then page N, and nothing else; their number
    is s1 + ... + sN; and it has issued exactly the N requests for
    [apiUrl] and the N-1 pointers, in that order. *)
Theorem getArrayRecursively_all_pages bodies itemss nexts extra apiUrl accessToken :
  page_chain bodies itemss nexts ->
  let r := getArrayRecursively (map RpFulfilled bodies ++ extra) apiUrl accessToken in
  outcome r = Fulfilled (concat itemss) /\
  length (concat itemss) = list_sum (map length itemss) /\
  requests r = map (fun u => request_for u accessToken) (apiUrl :: nexts).
Proof.
  intros Hchain. revert apiUrl.
  induction Hchain as [body items next Henv Hnext
                      |body items next bodies itemss nexts Henv Hnext Hchain IH];
    intros apiUrl; cbn zeta.
  - cbn [map app].
    rewrite (getArrayRecursively_envelope _ _ _ _ _ _ Henv), Hnext.
    cbn. rewrite app_nil_r, Nat.add_0_r. auto.
  - cbn [map app].
    rewrite (getArrayRecursively_envelope _ _ _ _ _ _ Henv), Hnext.
    destruct (IH next) as (Hout & Hlen & Hreq).
    cbn zeta. cbn [map concat outcome requests]. rewrite Hout, Hreq.
    split; [reflexivity|]. split.
    + cbn [list_sum]. rewrite length_app, Hlen. reflexivity.
    + rewrite app_nil_r. reflexivity.
Qed.

Lemma getArrayRecursively_settled rs extra apiUrl accessToken :
  settled (outcome (getArrayRecursively rs apiUrl accessToken)) = true ->
  getArrayRecursively (rs ++ extra) apiUrl accessToken
  = getArrayRecursively rs apiUrl accessToken.
Proof.
  revert apiUrl.
  induction rs as [|[apiResponse|e] rs IH]; intros apiUrl Hs.
  - discriminate Hs.
  - cbn [app getArrayRecursively] in *.
    destruct (get_prop apiResponse "d") as [d|e]; [|reflexivity].
    cbn [mbind completion_bind] in *.
    destruct (get_prop d "results") as [results|e]; [|reflexivity].
    cbn [mbind completion_bind] in *.
    destruct (get_prop d "__next") as [next|e]; [|reflexivity].
    cbn [mbind completion_bind mret completion_ret] in *.
    destruct (truthy next); [|reflexivity].
    cbn [map concat outcome requests] in *.
    rewrite IH; [reflexivity|].
    destruct (outcome (getArrayRecursively rs next accessToken)); [discriminate Hs| |];
      reflexivity.
  - reflexivity.
Qed.

Lemma get_prop_throw_iff base name :
  (exists e, get_prop base name = Throw e) <-> nullish base = true.
Proof.
  destruct base; cbn; split; intros H; try discriminate; try (destruct H; discriminate);
    eauto.
Qed.

Lemma reading_results_throws apiResponse :
  (exists e, (d ← get_prop apiResponse "d"; get_prop d "results") = Throw e) <->
  nullish apiResponse = true \/
  exists d, get_prop apiResponse "d" = Normal d /\ nullish d = true.
Proof.
  split.
  - intros [e H]. destruct (get_prop apiResponse "d") as [d|e'] eqn:Hd.
    + right. exists d. split; [reflexivity|].
      apply (proj1 (get_prop_throw_iff d "results")). eauto.
    + left. apply (proj1 (get_prop_throw_iff apiResponse "d")). eauto.
  - intros [H|(d & Hd & H)].
    + apply (proj2 (get_prop_throw_iff apiResponse "d")) in H as [e He].
      exists e. rewrite He. reflexivity.
    + rewrite Hd. apply (proj2 (get_prop_throw_iff d "results")). exact H.
Qed.

(** C9, as amended: when the pages before it all carry a continuation
    pointer and a response fails the fetch (the transport rejects with
    [e], or reading [apiResponse.d.results] throws [e] because [d] is
    missing), the caller's promise is rejected with that same [e]: no
    records are returned, and no request is issued after the failing one
    even when the transport has more responses. *)
Theorem getArrayRecursively_failure_propagates
  bodies nexts response e extra apiUrl accessToken :
  followed bodies nexts ->
  fails_with response e ->
  let r := getArrayRecursively (map RpFulfilled bodies ++ response :: extra)
             apiUrl accessToken in
  outcome r = Rejected e /\
  requests r = map (fun u => request_for u accessToken) (apiUrl :: nexts).
Proof.
  intros Hfollowed Hfails. revert apiUrl.
  induction Hfollowed as [|body results next bodies nexts Henv Hnext _ IH];
    intros apiUrl; cbn zeta.
  - cbn [map app]. destruct Hfails as [e|body e Hthrow].
    + split; reflexivity.
    + cbn [getArrayRecursively].
      destruct (get_prop body "d") as [d|e']; cbn [mbind completion_bind] in *.
      * rewrite Hthrow. split; reflexivity.
      * injection Hthrow as ->. split; reflexivity.
  - cbn [map app].
    rewrite (getArrayRecursively_envelope _ _ _ _ _ _ Henv), Hnext.
    destruct (IH next) as [Hout Hreq].
    cbn zeta. cbn [map concat outcome requests]. rewrite Hout, Hreq, app_nil_r.
    split; reflexivity.
Qed.

(** C9, as stated, fails: the envelope [{"d": {}}] lacks the expected
    [results] member, and the fetcher does not reject; it fulfils with the
    one-element array [[undefined]]. *)
Lemma missing_results_is_not_a_failure :
  let apiResponse := JObj [("d", JObj [])] in
  missing_field apiResponse = true /\
  getArrayRecursively [RpFulfilled apiResponse] (JStr "https://sp/_api/Web/Lists") "t"
  = {| outcome := Fulfilled [JUndefined];
       requests := [request_for (JStr "https://sp/_api/Web/Lists") "t"] |}.
Proof. split; reflexivity. Qed.


(** *** Promise.all *)

Lemma Promise_all_rejected {A} (ps : list (PState A)) :
  (exists e, Promise_all ps = Rejected e) <->
  (exists i e, ps !! i = Some (Rejected e)).
Proof.
  induction ps as [|p ps IH].
  - split; [intros [e H]; discriminate|intros (i & e & H); discriminate].
  - split.
    + intros [e H]. cbn [Promise_all] in H.
      destruct p as [|a|e'].
      * destruct (Promise_all ps) eqn:Hps; try discriminate.
        destruct (proj1 IH) as (i & e'' & Hi); [eauto|]. exists (S i), e''. exact Hi.
      * destruct (Promise_all ps) eqn:Hps; try discriminate.
        destruct (proj1 IH) as (i & e'' & Hi); [eauto|]. exists (S i), e''. exact Hi.
      * exists 0%nat, e'. reflexivity.
    + intros (i & e & Hi). cbn [Promise_all].
      destruct p as [|a|e']; [| |eauto].
      * destruct i as [|i]; [discriminate|].
        destruct (proj2 IH) as [e' He']; [eauto|]. rewrite He'. eauto.
      * destruct i as [|i]; [discriminate|].
        destruct (proj2 IH) as [e' He']; [eauto|]. rewrite He'. eauto.
Qed.

Lemma Promise_all_fulfilled {A} (ps : list (PState A)) :
  (exists l, Promise_all ps = Fulfilled l) <->
  (forall i p, ps !! i = Some p -> is_fulfilled p = true).
Proof.
  induction ps as [|p ps IH].
  - split; [intros _ i p H; discriminate|eauto].
  - split.
    + intros [l H] i q Hi. cbn [Promise_all] in H.
      destruct p as [|a|e]; try discriminate.
      * destruct (Promise_all ps); discriminate.
      * destruct (Promise_all ps) eqn:Hps; try discriminate.
        destruct i as [|i]; [injection Hi as <-; reflexivity|].
        eapply (proj1 IH); eauto.
    + intros H. cbn [Promise_all].
      pose proof (H 0%nat p eq_refl) as Hp. destruct p as [|a|e]; try discriminate.
      destruct (proj2 IH) as [l Hl]; [intros i q Hi; exact (H (S i) q Hi)|].
      rewrite Hl. eauto.
Qed.

Lemma agree_refl {A} (p : PState A) : agree p p.
Proof. destruct p; exact I || reflexivity. Qed.

Lemma join_agree (j : PState (list JValue)) (ps : list (PState JValue)) i p :
  ps !! i = Some Pending ->
  settled p = true ->
  agree j (Promise_all ps) ->
  agree (join j (<[i := p]> ps) p) (Promise_all (<[i := p]> ps)).
Proof.
  intros Hi Hp Hagree.
  assert (Hlt : (i < length ps)%nat) by (eapply lookup_lt_Some; eauto).
  destruct j as [|l|e]; cbn [join].
  - destruct p as [|v|e]; [discriminate| |].
    + apply agree_refl.
    + destruct (proj2 (Promise_all_rejected (<[i := Rejected e]> ps))) as [e' He'].
      { exists i, e. apply list_lookup_insert_eq. exact Hlt. }
      rewrite He'. exact I.
  - destruct (Promise_all ps) as [|l'|e] eqn:Hps; try contradiction.
    assert (is_fulfilled (@Pending JValue) = true) as Habs; [|discriminate Habs].
    eapply (proj1 (Promise_all_fulfilled ps)); eauto.
  - destruct (Promise_all ps) as [|l'|e'] eqn:Hps; try contradiction.
    destruct (proj1 (Promise_all_rejected ps)) as (k & e'' & Hk); [eauto|].
    destruct (proj2 (Promise_all_rejected (<[i := p]> ps))) as [e3 He3].
    { exists k, e''. rewrite list_lookup_insert_ne; [exact Hk|]. congruence. }
    rewrite He3. exact I.
Qed.


(** *** The fan-out keeps its invariant *)

Lemma responses_for_snoc i deliveries j response :
  responses_for i (deliveries ++ [(j, response)])
  = responses_for i deliveries ++ (if (j =? i)%nat then [response] else []).
Proof.
  induction deliveries as [|[k r] deliveries IH]; cbn [app responses_for].
  - destruct (j =? i)%nat; reflexivity.
  - rewrite IH. destruct (k =? i)%nat; reflexivity.
Qed.

Section FanOutProofs.
Variables sharepointResourceUrl siteName listGuid accessToken : string.

Abbreviation sub := (subFetch sharepointResourceUrl siteName listGuid accessToken).
Abbreviation Inv := (fanout_inv sharepointResourceUrl siteName listGuid accessToken).

Lemma subFetch_settled id rs extra :
  settled (sub id rs) = true -> sub id (rs ++ extra) = sub id rs.
Proof.
  unfold subFetch, getListAttachmentFiles. intros Hs.
  rewrite getArrayRecursively_settled; [reflexivity|exact Hs].
Qed.

Lemma subFetch_nil id : sub id [] = Pending.
Proof. reflexivity. Qed.

Lemma inv_update items deliveries st i response item id j' :
  Inv items deliveries st ->
  items !! i = Some item ->
  get_prop item "Id" = Normal id ->
  let rs' := responses_for i deliveries ++ [response] in
  let c' := {| listItemId := id;
               delivered := rs';
               subPromise := callback_promise item (sub id rs') |} in
  agree j' (Promise_all (subPromise <$> <[i := c']> (chains st))) ->
  Inv items (deliveries ++ [(i, response)])
    {| sharepointList := <[i := assigned item (sub id rs')]> (sharepointList st);
       chains := <[i := c']> (chains st);
       joined := j' |}.
Proof.
  intros HInv Hitem Hid rs' c' Hagree.
  destruct HInv as [Hll Hlc Hchain Hj].
  assert (Hlt : (i < length items)%nat) by (eapply lookup_lt_Some; eauto).
  split; cbn [sharepointList chains joined].
  - rewrite length_insert. exact Hll.
  - rewrite length_insert. exact Hlc.
  - intros k item_k Hk. rewrite responses_for_snoc.
    destruct (Nat.eqb_spec i k) as [<-|Hne].
    + rewrite Hk in Hitem. injection Hitem as ->.
      exists id. split; [exact Hid|]. split.
      * apply list_lookup_insert_eq. lia.
      * apply list_lookup_insert_eq. lia.
    + rewrite app_nil_r.
      destruct (Hchain k item_k Hk) as (id_k & Hid_k & Hc_k & Hl_k).
      exists id_k. split; [exact Hid_k|]. split.
      * rewrite list_lookup_insert_ne; [exact Hc_k|exact Hne].
      * rewrite list_lookup_insert_ne; [exact Hl_k|exact Hne].
  - exact Hagree.
Qed.

Lemma deliver_inv items deliveries st ev :
  Inv items deliveries st ->
  Inv items (deliveries ++ [ev])
    (deliver sharepointResourceUrl siteName listGuid accessToken st ev).
Proof.
  intros HInv. destruct ev as [i response].
  destruct (items !! i) as [item|] eqn:Hitem.
  - destruct (inv_chain _ _ _ _ _ _ _ HInv i item Hitem) as (id & Hid & Hc & Hl).
    pose proof (inv_joined _ _ _ _ _ _ _ HInv) as Hj.
    set (rs := responses_for i deliveries) in *.
    assert (Hlt : (i < length (chains st))%nat) by (eapply lookup_lt_Some; eauto).
    assert (Hsame : sub id (rs ++ [response]) = sub id rs ->
      Inv items (deliveries ++ [(i, response)])
        {| sharepointList := sharepointList st;
           chains := <[i := {| listItemId := id;
                               delivered := rs ++ [response];
                               subPromise := callback_promise item (sub id rs) |}]>
                       (chains st);
           joined := joined st |}).
    { intros Heq.
      pose proof (inv_update items deliveries st i response item id (joined st)
                    HInv Hitem Hid) as Hupd.
      cbn zeta in Hupd. fold rs in Hupd. rewrite Heq in Hupd.
      rewrite (list_insert_id (sharepointList st)) in Hupd; [|exact Hl].
      apply Hupd. rewrite list_fmap_insert. cbn [subPromise].
      rewrite list_insert_id; [exact Hj|].
      rewrite list_lookup_fmap, Hc. reflexivity. }
    assert (Hsettle : forall p,
      sub id rs = Pending ->
      settled p = true ->
      p = callback_promise item (sub id (rs ++ [response])) ->
      Inv items (deliveries ++ [(i, response)])
        (settle_sub i {| listItemId := id;
                         delivered := rs ++ [response];
                         subPromise := callback_promise item (sub id rs) |}
           p (<[i := assigned item (sub id (rs ++ [response]))]> (sharepointList st))
           st)).
    { intros p Hb Hp Heq. unfold settle_sub. cbn [listItemId delivered].
      pose proof (inv_update items deliveries st i response item id
                    (join (joined st)
                       (subPromise <$>
                        <[i := {| listItemId := id;
                                  delivered := rs ++ [response];
                                  subPromise := p |}]> (chains st)) p)
                    HInv Hitem Hid) as Hupd.
      cbn zeta in Hupd. fold rs in Hupd. rewrite <- Heq in Hupd.
      apply Hupd. rewrite list_fmap_insert. cbn [subPromise].
      apply join_agree; [|exact Hp|exact Hj].
      rewrite list_lookup_fmap, Hc. cbn. rewrite Hb. reflexivity. }
    unfold deliver. rewrite Hl, Hc. cbn [listItemId delivered subPromise].
    fold (sub id rs). fold (sub id (rs ++ [response])).
    destruct (sub id rs) as [|files|e] eqn:Hb.
    + cbn [assigned] in *.
      destruct (sub id (rs ++ [response])) as [|files|e] eqn:Ha.
      * apply Hsame. reflexivity.
      * destruct (set_prop item "AttachmentFiles" (JArr files)) as [item'|e] eqn:Hset.
        -- specialize (Hsettle (Fulfilled JUndefined) eq_refl eq_refl).
           cbn in Hsettle. rewrite Hset in Hsettle. apply Hsettle. reflexivity.
        -- specialize (Hsettle (Rejected e) eq_refl eq_refl).
           cbn in Hsettle. rewrite Hset in Hsettle.
           rewrite (list_insert_id (sharepointList st)) in Hsettle; [|exact Hl].
           apply Hsettle. reflexivity.
      * specialize (Hsettle (Rejected e) eq_refl eq_refl).
        cbn in Hsettle.
        rewrite (list_insert_id (sharepointList st)) in Hsettle; [|exact Hl].
        apply Hsettle. reflexivity.
    + apply Hsame. rewrite subFetch_settled; [exact Hb|rewrite Hb; reflexivity].
    + apply Hsame. rewrite subFetch_settled; [exact Hb|rewrite Hb; reflexivity].
  - assert (Hge : (length items <= i)%nat) by (apply lookup_ge_None; exact Hitem).
    unfold deliver.
    rewrite (proj2 (lookup_ge_None (sharepointList st) i));
      [|rewrite (inv_list_length _ _ _ _ _ _ _ HInv); exact Hge].
    destruct HInv as [Hll Hlc Hchain Hj].
    split; [exact Hll|exact Hlc| |exact Hj].
    intros k item_k Hk. rewrite responses_for_snoc.
    destruct (Nat.eqb_spec i k) as [<-|Hne]; [congruence|].
    rewrite app_nil_r. apply Hchain. exact Hk.
Qed.
End FanOutProofs.


(** *** Objects *)

Lemma own_prop_put_own name v props : own_prop name (put_own name v props) = Some v.
Proof.
  induction props as [|[k w] props IH]; cbn [put_own own_prop].
  - rewrite String.eqb_refl. reflexivity.
  - destruct (String.eqb_spec k name) as [->|Hne]; cbn [own_prop].
    + rewrite String.eqb_refl. reflexivity.
    + rewrite (proj2 (String.eqb_neq k name) Hne). exact IH.
Qed.

Lemma own_prop_put_own_ne name name' v props :
  name' <> name -> own_prop name' (put_own name v props) = own_prop name' props.
Proof.
  intros Hne.
  induction props as [|[k w] props IH]; cbn [put_own own_prop].
  - rewrite (proj2 (String.eqb_neq name name')); [reflexivity|congruence].
  - destruct (String.eqb_spec k name) as [->|Hk]; cbn [own_prop].
    + rewrite (proj2 (String.eqb_neq name name')); [reflexivity|congruence].
    + rewrite IH. reflexivity.
Qed.

Lemma set_prop_object item name v :
  is_object item = true ->
  exists item',
    set_prop item name v = Normal item' /\
    get_prop item' name = Normal v /\
    forall name', name' <> name -> get_prop item' name' = get_prop item name'.
Proof.
  destruct item as [| | | | | |props]; try discriminate. intros _.
  exists (JObj (put_own name v props)). split; [reflexivity|]. split.
  - cbn [get_prop]. rewrite own_prop_put_own. reflexivity.
  - intros name' Hne. cbn [get_prop]. rewrite own_prop_put_own_ne; [reflexivity|exact Hne].
Qed.

(** *** getListWithAttachmentFiles *)

Section AttachProofs.
Variables sharepointResourceUrl siteName listGuid accessToken : string.

Abbreviation Inv := (fanout_inv sharepointResourceUrl siteName listGuid accessToken).
Abbreviation deliver_ := (deliver sharepointResourceUrl siteName listGuid accessToken).

Lemma mapM_start_chain items chains0 :
  mapM start_chain items = Normal chains0 ->
  length chains0 = length items /\
  forall i item, items !! i = Some item ->
    exists id, get_prop item "Id" = Normal id /\
      chains0 !! i = Some {| listItemId := id; delivered := []; subPromise := Pending |}.
Proof.
  revert chains0.
  induction items as [|item0 items IH]; intros chains0 H.
  - cbn [mapM] in H. unfold mret, completion_ret in H. injection H as <-.
    split; [reflexivity|]. intros i item Hi. rewrite lookup_nil in Hi. discriminate Hi.
  - cbn [mapM] in H. unfold mbind, completion_bind, mret, completion_ret in H.
    destruct (start_chain item0) as [c0|e] eqn:Hc0; [|discriminate H].
    destruct (mapM start_chain items) as [cs|e] eqn:Hcs; [|discriminate H].
    injection H as <-.
    unfold start_chain, mbind, completion_bind, mret, completion_ret in Hc0.
    destruct (get_prop item0 "Id") as [id0|e] eqn:Hid0; [|discriminate Hc0].
    injection Hc0 as <-.
    destruct (IH cs eq_refl) as [Hlen Hlook]. split.
    + cbn [length]. rewrite Hlen. reflexivity.
    + intros [|i] item Hi.
      * injection Hi as <-. exists id0. split; [exact Hid0|reflexivity].
      * apply Hlook. exact Hi.
Qed.

Lemma fanout_inv_start items chains0 :
  mapM start_chain items = Normal chains0 ->
  Inv items []
    {| sharepointList := items;
       chains := chains0;
       joined := Promise_all (subPromise <$> chains0) |}.
Proof.
  intros H. destruct (mapM_start_chain items chains0 H) as [Hlen Hlook].
  split; cbn [sharepointList chains joined].
  - reflexivity.
  - exact Hlen.
  - intros i item Hi. destruct (Hlook i item Hi) as (id & Hid & Hc).
    exists id. split; [exact Hid|]. split; [exact Hc|exact Hi].
  - apply agree_refl.
Qed.

Lemma fanout_inv_run items deliveries more st :
  Inv items deliveries st ->
  Inv items (deliveries ++ more) (fold_left deliver_ more st).
Proof.
  revert deliveries st.
  induction more as [|ev more IH]; intros deliveries st HInv.
  - rewrite app_nil_r. exact HInv.
  - cbn [fold_left].
    replace (deliveries ++ ev :: more) with ((deliveries ++ [ev]) ++ more)
      by (rewrite <- app_assoc; reflexivity).
    apply IH. apply deliver_inv. exact HInv.
Qed.

(** C4: when [getList] fulfils with M records and, under the trace of
    deliveries, the chain of record [i] fulfils with the files
    [attachmentFiles i], then for every such trace (every interleaving and
    completion order) the operation fulfils with M records in the original
    order, record [i] being the original one with [AttachmentFiles] set to
    exactly [attachmentFiles i] and every other property untouched. *)
Theorem getListWithAttachmentFiles_attaches
  listResponses deliveries items (attachmentFiles : nat -> list JValue) :
  outcome (getList listResponses sharepointResourceUrl siteName listGuid accessToken)
    = Fulfilled items ->
  (forall i item, items !! i = Some item -> is_object item = true) ->
  (forall i item id, items !! i = Some item -> get_prop item "Id" = Normal id ->
     outcome (getListAttachmentFiles (responses_for i deliveries)
                sharepointResourceUrl siteName listGuid id accessToken)
     = Fulfilled (attachmentFiles i)) ->
  exists result,
    getListWithAttachmentFiles sharepointResourceUrl siteName listGuid accessToken
      listResponses deliveries = Fulfilled result /\
    length result = length items /\
    forall i item, items !! i = Some item ->
      exists item',
        result !! i = Some item' /\
        get_prop item' "AttachmentFiles" = Normal (JArr (attachmentFiles i)) /\
        forall name, name <> "AttachmentFiles" ->
          get_prop item' name = get_prop item name.
Proof.
  intros Hlist Hobj Hsub.
  unfold getListWithAttachmentFiles. rewrite Hlist.
  destruct (mapM start_chain items) as [chains0|e] eqn:Hstart.
  - pose proof (fanout_inv_run items [] deliveries _ (fanout_inv_start items chains0 Hstart))
      as HInv.
    cbn [app] in HInv.
    set (st := fold_left deliver_ deliveries _) in *.
    destruct HInv as [Hll Hlc Hchain Hj].
    assert (Hall : exists l, Promise_all (subPromise <$> chains st) = Fulfilled l).
    { apply Promise_all_fulfilled. intros i p Hp.
      rewrite list_lookup_fmap in Hp.
      destruct (chains st !! i) as [c|] eqn:Hc; [|discriminate Hp].
      injection Hp as <-.
      destruct (items !! i) as [item|] eqn:Hitem.
      - destruct (Hchain i item Hitem) as (id & Hid & Hc' & _).
        rewrite Hc in Hc'. injection Hc' as ->. cbn [subPromise].
        change (subFetch sharepointResourceUrl siteName listGuid accessToken id
                  (responses_for i deliveries))
          with (outcome (getListAttachmentFiles (responses_for i deliveries)
                           sharepointResourceUrl siteName listGuid id accessToken)).
        rewrite (Hsub i item id Hitem Hid).
        destruct (set_prop_object item "AttachmentFiles" (JArr (attachmentFiles i))
                    (Hobj i item Hitem)) as (item' & Hset & _).
        unfold callback_promise, then_. rewrite Hset. reflexivity.
      - apply lookup_ge_None in Hitem. apply lookup_lt_Some in Hc. lia. }
    destruct Hall as [l Hl]. rewrite Hl in Hj.
    destruct (joined st) as [|l'|e]; try contradiction.
    exists (sharepointList st). split; [reflexivity|]. split; [exact Hll|].
    intros i item Hitem.
    destruct (Hchain i item Hitem) as (id & Hid & _ & Hlook).
    change (subFetch sharepointResourceUrl siteName listGuid accessToken id
              (responses_for i deliveries))
      with (outcome (getListAttachmentFiles (responses_for i deliveries)
                       sharepointResourceUrl siteName listGuid id accessToken))
      in Hlook.
    rewrite (Hsub i item id Hitem Hid) in Hlook.
    destruct (set_prop_object item "AttachmentFiles" (JArr (attachmentFiles i))
                (Hobj i item Hitem)) as (item' & Hset & Hget & Hother).
    unfold assigned in Hlook. rewrite Hset in Hlook.
    exists item'. split; [exact Hlook|]. split; [exact Hget|exact Hother].
  - exfalso. clear Hsub Hlist.
    revert e Hstart. induction items as [|item0 items IH]; intros e Hstart.
    + discriminate Hstart.
    + cbn [mapM] in Hstart.
      unfold mbind, completion_bind, mret, completion_ret in Hstart.
      destruct (start_chain item0) as [c0|e0] eqn:Hc0.
      * destruct (mapM start_chain items) as [cs|e1] eqn:Hcs; [discriminate Hstart|].
        apply (IH (fun i item Hi => Hobj (S i) item Hi) e1). reflexivity.
      * pose proof (Hobj 0%nat item0 eq_refl) as H0.
        destruct item0; try discriminate H0. discriminate Hc0.
Qed.

(** C5: if the chain of any one record is rejected, the whole operation is
    rejected: the caller gets a reason and no list, whatever the other
    chains did and in whatever order. *)
Theorem getListWithAttachmentFiles_all_or_nothing
  listResponses deliveries items j item id e :
  outcome (getList listResponses sharepointResourceUrl siteName listGuid accessToken)
    = Fulfilled items ->
  items !! j = Some item ->
  get_prop item "Id" = Normal id ->
  outcome (getListAttachmentFiles (responses_for j deliveries)
             sharepointResourceUrl siteName listGuid id accessToken)
    = Rejected e ->
  exists e',
    getListWithAttachmentFiles sharepointResourceUrl siteName listGuid accessToken
      listResponses deliveries = Rejected e'.
Proof.
  intros Hlist Hitem Hid Hsub.
  unfold getListWithAttachmentFiles. rewrite Hlist.
  destruct (mapM start_chain items) as [chains0|e0] eqn:Hstart; [|eauto].
  pose proof (fanout_inv_run items [] deliveries _ (fanout_inv_start items chains0 Hstart))
    as HInv.
  cbn [app] in HInv.
  set (st := fold_left deliver_ deliveries _) in *.
  destruct HInv as [Hll Hlc Hchain Hj].
  destruct (Hchain j item Hitem) as (id' & Hid' & Hc & _).
  rewrite Hid in Hid'. injection Hid' as <-.
  assert (Hrej : exists e', Promise_all (subPromise <$> chains st) = Rejected e').
  { apply Promise_all_rejected. exists j, e.
    rewrite list_lookup_fmap, Hc. cbn [fmap option_fmap option_map subPromise].
    unfold subFetch. rewrite Hsub. reflexivity. }
  destruct Hrej as [e' He']. rewrite He' in Hj.
  destruct (joined st) as [|l|e'']; try contradiction.
  exists e''. reflexivity.
Qed.
End AttachProofs.


(** ** The token cache *)

Section TokenProofs.
Import SharepointToken.
Variable sharepointConfig : SharepointSourceConfig.
Variable Date_parse : string -> option Z.

Abbreviation getToken_ := (getToken sharepointConfig Date_parse).
Abbreviation acquire_ := (acquire sharepointConfig).
Abbreviation run_ := (run sharepointConfig Date_parse).

Lemma deref_lookup st p tp : promises st !! p = Some tp -> deref st p = tp.
Proof. intros H. unfold deref. rewrite H. reflexivity. Qed.

Lemma getToken_pending st p now :
  tokenRequestPromise st = Some p ->
  promises st !! p = Some TPending ->
  getToken_ now st = (p, st).
Proof.
  intros Hslot Hp. unfold getToken.
  rewrite Hslot, (deref_lookup st p TPending Hp), Hslot, (deref_lookup st p TPending Hp).
  reflexivity.
Qed.

Lemma settle_other st p q result :
  q <> p ->
  tokenRequestPromise (settle q result st) = tokenRequestPromise st /\
  promises (settle q result st) !! p = promises st !! p /\
  acquisitions (settle q result st) = acquisitions st.
Proof.
  intros Hne. unfold settle.
  destruct (promises st !! q) as [[| | |]|], result; cbn [promises];
    rewrite ?list_lookup_insert_ne by exact Hne; auto.
Qed.

(** Inside the window: while the cached promise [p] is pending, every
    [getToken] call returns [p] and the state keeps its acquisitions, its
    slot and the pending [p]. *)
Lemma window_returns_cached st p evs :
  tokenRequestPromise st = Some p ->
  promises st !! p = Some TPending ->
  Forall (in_window p) evs ->
  fst (run_ evs st) = repeat p (length (filter is_getToken evs)) /\
  acquisitions (snd (run_ evs st)) = acquisitions st /\
  tokenRequestPromise (snd (run_ evs st)) = Some p /\
  promises (snd (run_ evs st)) !! p = Some TPending.
Proof.
  intros Hslot Hp Hwin. revert st Hslot Hp.
  induction Hwin as [|ev evs Hev _ IH]; intros st Hslot Hp.
  - cbn. auto.
  - destruct ev as [now| |q result]; cbn [run].
    + rewrite (getToken_pending st p now Hslot Hp).
      destruct (IH st Hslot Hp) as (Hret & Hacq & Hs & Hpp).
      destruct (run_ evs st) as [ps st'] eqn:Hrun.
      cbn [fst snd] in *. rewrite filter_cons. cbn [is_getToken].
      rewrite decide_True by exact I. cbn [length repeat].
      rewrite Hret. auto.
    + destruct Hev.
    + cbn [in_window] in Hev. rewrite filter_cons. cbn [is_getToken].
      rewrite decide_False by (intros H; exact H).
      destruct (settle_other st p q result Hev) as (Hslot' & Hp' & Hacq').
      rewrite <- Hslot' in Hslot. rewrite <- Hp' in Hp.
      destruct (IH _ Hslot Hp) as (Hret & Hacq & Hs & Hpp).
      rewrite Hacq' in Hacq. auto.
Qed.

(** C2, as amended: single flight holds for the acquisition the cache
    holds.  Over a window of [getToken] calls and settlements of other
    promises, with no [dropToken]: when the cached promise [p] is pending,
    every call returns [p] and no acquisition is issued; and when the cache
    is empty, the first call issues exactly one acquisition, whose promise
    [p] every call of the window returns, so that any number of calls adds
    exactly one request to the log. *)
Theorem getToken_single_flight st p evs :
  Forall (in_window p) evs ->
  (tokenRequestPromise st = Some p ->
   promises st !! p = Some TPending ->
   fst (run_ evs st) = repeat p (length (filter is_getToken evs)) /\
   acquisitions (snd (run_ evs st)) = acquisitions st /\
   tokenRequestPromise (snd (run_ evs st)) = Some p /\
   promises (snd (run_ evs st)) !! p = Some TPending) /\
  (tokenRequestPromise st = None ->
   p = length (promises st) ->
   forall now,
     fst (run_ (CallGetToken now :: evs) st)
     = repeat p (S (length (filter is_getToken evs))) /\
     acquisitions (snd (run_ (CallGetToken now :: evs) st))
     = acquisitions st ++ [tokenRequest sharepointConfig] /\
     tokenRequestPromise (snd (run_ (CallGetToken now :: evs) st)) = Some p /\
     promises (snd (run_ (CallGetToken now :: evs) st)) !! p = Some TPending).
Proof.
  intros Hwin. split.
  - intros Hslot Hp. exact (window_returns_cached st p evs Hslot Hp Hwin).
  - intros Hslot -> now. cbn [run].
    assert (Hfirst : getToken_ now st = acquire_ st).
    { unfold getToken. rewrite Hslot, Hslot. reflexivity. }
    rewrite Hfirst. cbn [acquire].
    set (st1 := {| tokenRequestPromise := Some (length (promises st));
                   promises := promises st ++ [TPending];
                   acquisitions := acquisitions st ++ [tokenRequest sharepointConfig] |}).
    assert (Hp1 : promises st1 !! length (promises st) = Some TPending).
    { cbn [st1 promises]. rewrite lookup_app_r by lia.
      rewrite Nat.sub_diag. reflexivity. }
    destruct (window_returns_cached st1 (length (promises st)) evs eq_refl Hp1 Hwin)
      as (Hret & Hacq & Hs & Hpp).
    destruct (run_ evs st1) as [ps st2]. cbn [fst snd] in *.
    cbn [repeat]. rewrite Hret. auto.
Qed.

(** The window is a window of [getToken] calls only: a [dropToken] inside it
    makes the next call start a second acquisition while the first is
    still pending. *)
Remark dropToken_inside_window now1 now2 :
  run_ [CallGetToken now1; CallDropToken; CallGetToken now2] initial
  = ([0%nat; 1%nat],
     {| tokenRequestPromise := Some 1%nat;
        promises := [TPending; TPending];
        acquisitions := [tokenRequest sharepointConfig; tokenRequest sharepointConfig] |}).
Proof. reflexivity. Qed.

Lemma getToken_twice_from_empty st now1 now2 :
  tokenRequestPromise st = None ->
  run_ [CallGetToken now1; CallGetToken now2] st
  = ([length (promises st); length (promises st)], snd (acquire_ st)).
Proof.
  intros Hslot. cbn [run].
  assert (H1 : getToken_ now1 st = acquire_ st).
  { unfold getToken. rewrite Hslot, Hslot. reflexivity. }
  rewrite H1. cbn [acquire].
  rewrite getToken_pending with (p := length (promises st)); [reflexivity..|].
  cbn [promises]. rewrite lookup_app_r by lia. rewrite Nat.sub_diag. reflexivity.
Qed.

(** C3: a fulfilled cached token is expired exactly when
    [now > Date.parse(expiresOn) + 30000]; an expired one makes [getToken]
    clear the slot and issue a new acquisition, any other is returned with
    the state untouched.  At [expiresOn = now - 40s] it is expired, at
    [now - 10s] it is not. *)
Theorem getToken_expiry st p value now :
  tokenRequestPromise st = Some p ->
  promises st !! p = Some (TFulfilled value) ->
  (tokenExpired Date_parse now value = true <->
   exists t, Date_parse (expiresOn value) = Some t /\ now > t + 30000) /\
  (tokenExpired Date_parse now value = true ->
   getToken_ now st
   = (length (promises st),
      {| tokenRequestPromise := Some (length (promises st));
         promises := promises st ++ [TPending];
         acquisitions := acquisitions st ++ [tokenRequest sharepointConfig] |})) /\
  (tokenExpired Date_parse now value = false -> getToken_ now st = (p, st)) /\
  (Date_parse (expiresOn value) = Some (now - 40000) ->
   tokenExpired Date_parse now value = true) /\
  (Date_parse (expiresOn value) = Some (now - 10000) ->
   tokenExpired Date_parse now value = false).
Proof.
  intros Hslot Hp.
  pose proof (deref_lookup st p _ Hp) as Hd.
  repeat split.
  - unfold tokenExpired. destruct (Date_parse (expiresOn value)) as [t|]; [|discriminate].
    intros H. exists t. split; [reflexivity|]. apply Z.gtb_gt in H. lia.
  - intros (t & Ht & Hgt). unfold tokenExpired. rewrite Ht. apply Z.gtb_gt. lia.
  - intros Hexp. unfold getToken. rewrite Hslot, Hd, Hexp. reflexivity.
  - intros Hexp. unfold getToken. rewrite Hslot, Hd, Hexp, Hslot, Hd. reflexivity.
  - intros Ht. unfold tokenExpired. rewrite Ht. apply Z.gtb_gt. lia.
  - intros Ht. unfold tokenExpired. rewrite Ht.
    destruct (Z.gtb_spec now (now - 10000 + 30000)); [lia|reflexivity].
Qed.

(** C6: when the cached promise is rejected or cancelled, [getToken]
    issues a new acquisition and returns its promise, which is pending and
    is not the failed one. *)
Theorem getToken_after_failure st p now :
  tokenRequestPromise st = Some p ->
  isRejected (deref st p) || isCancelled (deref st p) = true ->
  getToken_ now st
  = (length (promises st),
     {| tokenRequestPromise := Some (length (promises st));
        promises := promises st ++ [TPending];
        acquisitions := acquisitions st ++ [tokenRequest sharepointConfig] |}) /\
  length (promises st) <> p.
Proof.
  intros Hslot Hfail. split.
  - unfold getToken. rewrite Hslot.
    destruct (deref st p) eqn:Hd; try discriminate Hfail;
      rewrite Hslot, Hd; reflexivity.
  - unfold deref in Hfail.
    destruct (promises st !! p) as [tp|] eqn:Hp; [|discriminate Hfail].
    apply lookup_lt_Some in Hp. lia.
Qed.

(** C7: from every state, [dropToken] empties the slot, and the
    [getToken] call that follows issues one new acquisition and returns
    its pending promise. *)
Theorem dropToken_then_getToken st now :
  tokenRequestPromise (dropToken st) = None /\
  getToken_ now (dropToken st)
  = (length (promises st),
     {| tokenRequestPromise := Some (length (promises st));
        promises := promises st ++ [TPending];
        acquisitions := acquisitions st ++ [tokenRequest sharepointConfig] |}).
Proof. split; reflexivity. Qed.
End TokenProofs.


(** ** Folders and files *)

(** C10: [getSubfolders] and [getFiles] issue exactly one request for
    every input, and when the response is an envelope they fulfil with its
    [results] member and nothing more: [__next] is never read, and the
    responses after the first play no part. *)
Theorem callApi_first_page_only
  apiResponse results next rs sharepointResourceUrl siteName folderPath accessToken :
  envelope apiResponse results next ->
  let folders := SharepointFiles.getSubfolders (RpFulfilled apiResponse :: rs)
                   sharepointResourceUrl siteName folderPath accessToken in
  let files := SharepointFiles.getFiles (RpFulfilled apiResponse :: rs)
                 sharepointResourceUrl siteName folderPath accessToken in
  outcome folders = Fulfilled results /\
  outcome files = Fulfilled results /\
  (forall rs0, length (requests (SharepointFiles.getSubfolders rs0
                  sharepointResourceUrl siteName folderPath accessToken)) = 1%nat) /\
  (forall rs0, length (requests (SharepointFiles.getFiles rs0
                  sharepointResourceUrl siteName folderPath accessToken)) = 1%nat).
Proof.
  intros (d & Hd & Hres & _). cbn zeta.
  unfold SharepointFiles.getSubfolders, SharepointFiles.getFiles, SharepointFiles.callApi.
  cbn [outcome requests SharepointFiles.rp then_ length].
  unfold mbind, completion_bind. rewrite Hd, Hres. auto.
Qed.


Import Scenario.

Lemma envelope_page results next :
  envelope (page results next) (JArr results)
    (match next with Some u => JStr u | None => JUndefined end).
Proof.
  eexists. split; [reflexivity|]. destruct next; split; reflexivity.
Defined.

Lemma getArrayRecursively_all_pages_witness :
  let r := getArrayRecursively listResponses (JStr "https://sp/first") "eyJ0" in
  outcome r = Fulfilled items /\
  length items = (2 + 1)%nat /\
  requests r = [request_for (JStr "https://sp/first") "eyJ0";
                request_for (JStr "https://sp/next") "eyJ0"].
Proof.
  apply (getArrayRecursively_all_pages
           [page [item 1 "a"; item 2 "b"] (Some "https://sp/next"); page [item 3 "c"] None]
           [[item 1 "a"; item 2 "b"]; [item 3 "c"]] [JStr "https://sp/next"] []
           (JStr "https://sp/first") "eyJ0").
  eapply chain_next;
    [exact (envelope_page _ (Some "https://sp/next")) | reflexivity |].
  eapply chain_last; [exact (envelope_page _ None) | reflexivity].
Defined.

Lemma getArrayRecursively_single_page_witness :
  outcome (getArrayRecursively
             [RpFulfilled (page [item 3 "c"] None); RpFulfilled (page [item 1 "a"] None)]
             (JStr "https://sp/first") "eyJ0")
    = Fulfilled [item 3 "c"] /\
  requests (getArrayRecursively
              [RpFulfilled (page [item 3 "c"] None); RpFulfilled (page [item 1 "a"] None)]
              (JStr "https://sp/first") "eyJ0")
    = [request_for (JStr "https://sp/first") "eyJ0"].
Proof.
  apply (getArrayRecursively_single_page (page [item 3 "c"] None) [item 3 "c"] JUndefined).
  - exact (envelope_page _ None).
  - reflexivity.
Defined.

Lemma getArrayRecursively_failure_propagates_witness :
  let r := getArrayRecursively
             [RpFulfilled (page [item 1 "a"] (Some "https://sp/next"));
              RpRejected (StatusCodeError 503 JNull);
              RpFulfilled (page [item 3 "c"] None)]
             (JStr "https://sp/first") "eyJ0" in
  outcome r = Rejected (StatusCodeError 503 JNull) /\
  requests r = [request_for (JStr "https://sp/first") "eyJ0";
                request_for (JStr "https://sp/next") "eyJ0"].
Proof.
  apply (getArrayRecursively_failure_propagates
           [page [item 1 "a"] (Some "https://sp/next")] [JStr "https://sp/next"]
           (RpRejected (StatusCodeError 503 JNull)) (StatusCodeError 503 JNull)
           [RpFulfilled (page [item 3 "c"] None)] (JStr "https://sp/first") "eyJ0").
  - eapply followed_cons;
      [exact (envelope_page _ (Some "https://sp/next")) | reflexivity | constructor].
  - constructor.
Defined.

Lemma getListWithAttachmentFiles_attaches_witness :
  exists result,
    getListWithAttachmentFiles "https://sp" "site" "guid" "eyJ0" listResponses deliveries
    = Fulfilled result /\
    length result = length items /\
    forall i it, items !! i = Some it ->
      exists it',
        result !! i = Some it' /\
        get_prop it' "AttachmentFiles" = Normal (JArr (attachmentFiles i)) /\
        forall name, name <> "AttachmentFiles" -> get_prop it' name = get_prop it name.
Proof.
  apply (getListWithAttachmentFiles_attaches "https://sp" "site" "guid" "eyJ0"
           listResponses deliveries items attachmentFiles).
  - reflexivity.
  - intros [|[|[|i]]] it H; cbn in H; try discriminate H; injection H as <-; reflexivity.
  - intros [|[|[|i]]] it id H Hid; cbn in H; try discriminate H; injection H as <-;
      cbn in Hid; injection Hid as <-; reflexivity.
Defined.

Lemma getListWithAttachmentFiles_all_or_nothing_witness :
  exists e',
    getListWithAttachmentFiles "https://sp" "site" "guid" "eyJ0" listResponses
      failing_deliveries = Rejected e'.
Proof.
  apply (getListWithAttachmentFiles_all_or_nothing "https://sp" "site" "guid" "eyJ0"
           listResponses failing_deliveries items 1%nat (item 2 "b") (JNum 2)
           (StatusCodeError 503 JNull));
    reflexivity.
Defined.

Lemma callApi_first_page_only_witness :
  let rs := [RpFulfilled (page [file "w1.pdf"] (Some "https://sp/more"));
             RpFulfilled (page [file "w2.pdf"] None)] in
  let folders := SharepointFiles.getSubfolders rs "https://sp" "site" "Shared" "eyJ0" in
  let files := SharepointFiles.getFiles rs "https://sp" "site" "Shared" "eyJ0" in
  outcome folders = Fulfilled (JArr [file "w1.pdf"]) /\
  outcome files = Fulfilled (JArr [file "w1.pdf"]) /\
  (forall rs0, length (requests (SharepointFiles.getSubfolders rs0
                  "https://sp" "site" "Shared" "eyJ0")) = 1%nat) /\
  (forall rs0, length (requests (SharepointFiles.getFiles rs0
                  "https://sp" "site" "Shared" "eyJ0")) = 1%nat).
Proof.
  apply (callApi_first_page_only (page [file "w1.pdf"] (Some "https://sp/more"))
           (JArr [file "w1.pdf"]) (JStr "https://sp/more")
           [RpFulfilled (page [file "w2.pdf"] None)] "https://sp" "site" "Shared" "eyJ0").
  exact (envelope_page _ (Some "https://sp/more")).
Defined.

Import SharepointToken.

Lemma getToken_single_flight_witness :
  let evs := [CallGetToken 1466071000000; Settle 7 TCancelled; CallGetToken 1466071000005] in
  (fst (run config Date_parse evs (cached TPending)) = [0%nat; 0%nat] /\
   acquisitions (snd (run config Date_parse evs (cached TPending)))
   = [tokenRequest config] /\
   tokenRequestPromise (snd (run config Date_parse evs (cached TPending))) = Some 0%nat /\
   promises (snd (run config Date_parse evs (cached TPending))) !! 0%nat = Some TPending) /\
  (fst (run config Date_parse (CallGetToken 1466070999999 :: evs) initial)
   = [0%nat; 0%nat; 0%nat] /\
   acquisitions (snd (run config Date_parse (CallGetToken 1466070999999 :: evs) initial))
   = [tokenRequest config] /\
   tokenRequestPromise (snd (run config Date_parse (CallGetToken 1466070999999 :: evs)
                               initial)) = Some 0%nat /\
   promises (snd (run config Date_parse (CallGetToken 1466070999999 :: evs) initial))
     !! 0%nat = Some TPending).
Proof.
  intros evs.
  assert (Hwin : Forall (in_window 0%nat) evs) by (repeat constructor; cbn; lia).
  split.
  - exact (proj1 (getToken_single_flight config Date_parse (cached TPending) 0%nat evs Hwin)
             eq_refl eq_refl).
  - exact (proj2 (getToken_single_flight config Date_parse initial 0%nat evs Hwin)
             eq_refl eq_refl 1466070999999).
Defined.

(** C2, as stated, fails: after [getToken] and [dropToken] the first
    acquisition (promise 0) is still in flight, yet the next two [getToken]
    calls do not return it; they return promise 1, for which a second
    acquisition request has been issued while the first is pending. *)
Lemma in_flight_but_dropped_is_duplicated :
  let st := snd (run config Date_parse [CallGetToken 1466071000000; CallDropToken]
                   initial) in
  promises st !! 0%nat = Some TPending /\
  acquisitions st = [tokenRequest config] /\
  run config Date_parse [CallGetToken 1466071000001; CallGetToken 1466071000002] st
  = ([1%nat; 1%nat],
     {| tokenRequestPromise := Some 1%nat;
        promises := [TPending; TPending];
        acquisitions := [tokenRequest config; tokenRequest config] |}).
Proof. repeat split; reflexivity. Qed.

Lemma getToken_expiry_witness :
  tokenExpired Date_parse 1466071240000 token = true /\
  tokenExpired Date_parse 1466071210000 token = false /\
  fst (getToken config Date_parse 1466071240000 (cached (TFulfilled token))) = 1%nat /\
  getToken config Date_parse 1466071210000 (cached (TFulfilled token))
  = (0%nat, cached (TFulfilled token)).
Proof.
  pose proof (getToken_expiry config Date_parse (cached (TFulfilled token)) 0%nat token
                1466071240000 eq_refl eq_refl) as (_ & Hfresh & _ & H40 & _).
  pose proof (getToken_expiry config Date_parse (cached (TFulfilled token)) 0%nat token
                1466071210000 eq_refl eq_refl) as (_ & _ & Hkeep & _ & H10).
  split; [exact (H40 eq_refl)|]. split; [exact (H10 eq_refl)|]. split.
  - rewrite (Hfresh (H40 eq_refl)). reflexivity.
  - exact (Hkeep (H10 eq_refl)).
Defined.

Lemma getToken_after_failure_witness :
  fst (getToken config Date_parse 1466071000000 (cached (TRejected "AADSTS70002")))
  = 1%nat.
Proof.
  destruct (getToken_after_failure config Date_parse (cached (TRejected "AADSTS70002"))
              0%nat 1466071000000 eq_refl eq_refl) as [H _].
  rewrite H. reflexivity.
Defined.

(** * Further properties *)

(** ** The page fetcher, further *)

Section PageFetcherMore.
Import SharepointLists.

(** X3: once the promise of a chain has settled, no later response changes
    its outcome or makes the chain issue another request. *)
Theorem getArrayRecursively_settles_once rs extra apiUrl accessToken :
  settled (outcome (getArrayRecursively rs apiUrl accessToken)) = true ->
  outcome (getArrayRecursively (rs ++ extra) apiUrl accessToken)
  = outcome (getArrayRecursively rs apiUrl accessToken) /\
  requests (getArrayRecursively (rs ++ extra) apiUrl accessToken)
  = requests (getArrayRecursively rs apiUrl accessToken).
Proof.
  intros Hs. rewrite (getArrayRecursively_settled rs extra apiUrl accessToken Hs).
  split; reflexivity.
Qed.

Lemma js_reduce_concat_cons (first : JValue) (rest : list JValue) :
  js_reduce js_concat [] [first; JArr rest] = js_concat [] first ++ rest.
Proof. reflexivity. Qed.

Lemma any_chain_outcome bodies resultss nexts extra apiUrl accessToken :
  any_chain bodies resultss nexts ->
  outcome (getArrayRecursively (map RpFulfilled bodies ++ extra) apiUrl accessToken)
  = Fulfilled (concat (map (js_concat []) resultss)).
Proof.
  intros Hchain. revert apiUrl.
  induction Hchain as [body results next Henv Hnext
                      |body results next bodies resultss nexts Henv Hnext _ IH];
    intros apiUrl; cbn [map app concat].
  - rewrite (getArrayRecursively_envelope _ _ _ _ _ _ Henv), Hnext.
    cbn. rewrite app_nil_r. reflexivity.
  - rewrite (getArrayRecursively_envelope _ _ _ _ _ _ Henv), Hnext.
    cbn zeta. cbn [map outcome]. rewrite (IH next).
    cbn [fmap pstate_fmap Promise_all then_]. rewrite js_reduce_concat_cons.
    reflexivity.
Qed.

(** X2: each page contributes [[].concat(results)] to the result, in page
    order: the elements of [results] when it is an array, [results] itself
    as one element when it is anything else ([undefined] when the member is
    missing). *)
Theorem getArrayRecursively_merges_any_results
  bodies resultss nexts extra apiUrl accessToken :
  any_chain bodies resultss nexts ->
  outcome (getArrayRecursively (map RpFulfilled bodies ++ extra) apiUrl accessToken)
  = Fulfilled (concat (map (js_concat []) resultss)).
Proof. intros Hchain. exact (any_chain_outcome _ _ _ _ _ _ Hchain). Qed.

Lemma getArrayRecursively_first apiResponse rs apiUrl accessToken :
  (exists e,
     fails_with (RpFulfilled apiResponse) e /\
     getArrayRecursively (RpFulfilled apiResponse :: rs) apiUrl accessToken
     = {| outcome := Rejected e; requests := [request_for apiUrl accessToken] |}) \/
  (exists results next, envelope apiResponse results next).
Proof.
  destruct (get_prop apiResponse "d") as [d|e] eqn:Hd.
  - destruct (get_prop d "results") as [results|e] eqn:Hres.
    + destruct (get_prop d "__next") as [next|e] eqn:Hnext.
      * right. exists results, next, d. auto.
      * destruct d; discriminate.
    + left. exists e. split.
      * constructor. rewrite Hd. exact Hres.
      * cbn [getArrayRecursively]. rewrite Hd. unfold mbind at 1, completion_bind at 1.
        rewrite Hres. reflexivity.
  - left. exists e. split.
    + constructor. rewrite Hd. reflexivity.
    + cbn [getArrayRecursively]. rewrite Hd. reflexivity.
Qed.

Lemma getArrayRecursively_first_request rs apiUrl accessToken :
  exists later,
    requests (getArrayRecursively rs apiUrl accessToken)
    = request_for apiUrl accessToken :: later.
Proof.
  destruct rs as [|[apiResponse|e] rs]; [exists []; reflexivity| |exists []; reflexivity].
  destruct (getArrayRecursively_first apiResponse rs apiUrl accessToken)
    as [(e & _ & ->)|(results & next & Henv)]; [exists []; reflexivity|].
  rewrite (getArrayRecursively_envelope _ _ _ _ _ _ Henv). eexists. reflexivity.
Qed.

(** X1: while every page received carries a continuation pointer, the
    fetcher has not fulfilled: it never hands out a partial list.  And
    every pointer received is followed: whatever comes after those pages,
    the requests issued begin with the one for [apiUrl] and then one per
    pointer, in page order. *)
Theorem getArrayRecursively_follows_every_pointer bodies nexts apiUrl accessToken :
  followed bodies nexts ->
  (forall l, outcome (getArrayRecursively (map RpFulfilled bodies) apiUrl accessToken)
             <> Fulfilled l) /\
  (forall extra, exists later,
     requests (getArrayRecursively (map RpFulfilled bodies ++ extra) apiUrl accessToken)
     = map (fun u => request_for u accessToken) (apiUrl :: nexts) ++ later).
Proof.
  intros Hfollowed. revert apiUrl.
  induction Hfollowed as [|body results next bodies nexts Henv Hnext _ IH]; intros apiUrl.
  - split; [intros l; discriminate|].
    intros extra. cbn [map app].
    destruct (getArrayRecursively_first_request extra apiUrl accessToken) as [later ->].
    exists later. reflexivity.
  - destruct (IH next) as [Hnot Hreq]. split.
    + intros l. cbn [map].
      rewrite (getArrayRecursively_envelope _ _ _ _ _ _ Henv), Hnext.
      cbn zeta. cbn [map outcome].
      destruct (outcome (getArrayRecursively (map RpFulfilled bodies) next accessToken))
        as [|l'|e] eqn:Ho; [discriminate| |discriminate].
      exfalso. exact (Hnot l' eq_refl).
    + intros extra. destruct (Hreq extra) as [later Hlater]. exists later.
      cbn [map app].
      rewrite (getArrayRecursively_envelope _ _ _ _ _ _ Henv), Hnext.
      cbn zeta. cbn [map concat requests]. rewrite app_nil_r, Hlater. reflexivity.
Qed.

(** X4: whatever the server answers, every request of a chain is sent with
    the same headers: the verbose OData [Accept], [Bearer] + the caller's
    token, certificate checking off and JSON parsing on; and the first
    request is the one for [apiUrl]. *)
Theorem getArrayRecursively_requests_uniform rs apiUrl accessToken :
  Forall (sent_with accessToken) (requests (getArrayRecursively rs apiUrl accessToken)) /\
  exists later,
    requests (getArrayRecursively rs apiUrl accessToken)
    = request_for apiUrl accessToken :: later.
Proof.
  assert (Hone : forall u, Forall (sent_with accessToken) [request_for u accessToken]).
  { intros u. constructor; [repeat split|constructor]. }
  revert apiUrl.
  induction rs as [|[apiResponse|e] rs IH]; intros apiUrl.
  - split; [apply Hone|exists []; reflexivity].
  - destruct (getArrayRecursively_first apiResponse rs apiUrl accessToken)
      as [(e & _ & ->)|(results & next & Henv)].
    + split; [apply Hone|exists []; reflexivity].
    + rewrite (getArrayRecursively_envelope _ _ _ _ _ _ Henv). cbn zeta.
      destruct (truthy next); cbn [map concat requests].
      * destruct (IH next) as [Hall _]. split.
        -- constructor; [repeat split|]. rewrite app_nil_r. exact Hall.
        -- eexists. reflexivity.
      * split; [apply Hone|exists []; reflexivity].
  - split; [apply Hone|exists []; reflexivity].
Qed.

(** X5: pages are fetched one after the other: whatever the transport has
    delivered, the chain has issued at least one request and at most one
    more than the responses delivered to it; it never has two requests
    outstanding and never asks twice for a page. *)
Theorem getArrayRecursively_one_in_flight rs apiUrl accessToken :
  (1 <= length (requests (getArrayRecursively rs apiUrl accessToken)) <= S (length rs))%nat.
Proof.
  revert apiUrl.
  induction rs as [|[apiResponse|e] rs IH]; intros apiUrl.
  - cbn. lia.
  - destruct (getArrayRecursively_first apiResponse rs apiUrl accessToken)
      as [(e & _ & ->)|(results & next & Henv)]; [cbn; lia|].
    rewrite (getArrayRecursively_envelope _ _ _ _ _ _ Henv). cbn zeta.
    destruct (truthy next); cbn [map concat requests length]; [|lia].
    rewrite app_nil_r. specialize (IH next). lia.
  - cbn. lia.
Qed.
End PageFetcherMore.

(** ** Folders, files and URLs, further *)

Section FilesMore.
Import SharepointLists.

Lemma page_chain_any bodies itemss nexts :
  page_chain bodies itemss nexts -> any_chain bodies (map JArr itemss) nexts.
Proof.
  induction 1 as [body items next Henv Hnext
                 |body items next bodies itemss nexts Henv Hnext _ IH]; cbn [map].
  - eapply any_last; eauto.
  - eapply any_next; eauto.
Qed.

Lemma concat_spread (itemss : list (list JValue)) :
  concat (map (js_concat []) (map JArr itemss)) = concat itemss.
Proof. induction itemss as [|items itemss IH]; cbn; [|rewrite IH]; reflexivity. Qed.

(** X6: on a chain of pages, [callApi] issues the one request for [apiUrl]
    and fulfils with the array of the first page, which is where the result
    of [getArrayRecursively] on the same responses begins. *)
Theorem callApi_is_first_page
  apiResponse bodies items itemss nexts extra apiUrl accessToken :
  page_chain (apiResponse :: bodies) (items :: itemss) nexts ->
  outcome (SharepointFiles.callApi (map RpFulfilled (apiResponse :: bodies) ++ extra)
             apiUrl accessToken) = Fulfilled (JArr items) /\
  outcome (getArrayRecursively (map RpFulfilled (apiResponse :: bodies) ++ extra)
             (JStr apiUrl) accessToken) = Fulfilled (items ++ concat itemss) /\
  requests (SharepointFiles.callApi (map RpFulfilled (apiResponse :: bodies) ++ extra)
              apiUrl accessToken) = [request_for (JStr apiUrl) accessToken].
Proof.
  intros Hchain. split; [|split].
  - assert (Henv : envelope apiResponse (JArr items)
                     (match nexts with [] => JUndefined | n :: _ => n end)
                   \/ exists next, envelope apiResponse (JArr items) next).
    { right. inversion Hchain; subst; eauto. }
    destruct Henv as [Henv|[next Henv]]; destruct Henv as (d & Hd & Hres & _);
      cbn [map app]; unfold SharepointFiles.callApi;
      cbn [outcome SharepointFiles.rp then_]; unfold mbind, completion_bind;
      rewrite Hd, Hres; reflexivity.
  - rewrite (any_chain_outcome _ _ _ extra (JStr apiUrl) accessToken
               (page_chain_any _ _ _ Hchain)).
    rewrite concat_spread. reflexivity.
  - reflexivity.
Qed.

Lemma append_assoc (a b c : string) : (a +:+ b) +:+ c = a +:+ (b +:+ c).
Proof.
  induction a as [|x a IH]; [reflexivity|].
  change (String x ((a +:+ b) +:+ c) = String x (a +:+ (b +:+ c))).
  rewrite IH. reflexivity.
Qed.

Lemma prefix_append (a b : string) : String.prefix a (a +:+ b) = true.
Proof.
  induction a as [|x a IH].
  - destruct b; reflexivity.
  - change (String.prefix (String x a) (String x (a +:+ b)) = true).
    cbn [String.prefix]. destruct (Ascii.ascii_dec x x); [exact IH|congruence].
Qed.

(** X8: a folder path that does not start with [/sites/<siteName>] is taken
    relative to the site: [getSubfolders] and [getFiles] behave on it as on
    the path prefixed with [/sites/<siteName>/]. *)
Theorem folder_path_relative_or_absolute
  rs sharepointResourceUrl siteName folderPath accessToken :
  String.prefix ("/sites/" +:+ siteName) folderPath = false ->
  SharepointFiles.getSubfolders rs sharepointResourceUrl siteName folderPath accessToken
  = SharepointFiles.getSubfolders rs sharepointResourceUrl siteName
      ("/sites/" +:+ siteName +:+ "/" +:+ folderPath) accessToken /\
  SharepointFiles.getFiles rs sharepointResourceUrl siteName folderPath accessToken
  = SharepointFiles.getFiles rs sharepointResourceUrl siteName
      ("/sites/" +:+ siteName +:+ "/" +:+ folderPath) accessToken.
Proof.
  intros Hrel.
  assert (Habs : String.prefix ("/sites/" +:+ siteName)
                   ("/sites/" +:+ siteName +:+ "/" +:+ folderPath) = true).
  { rewrite <- (append_assoc "/sites/" siteName). apply prefix_append. }
  unfold SharepointFiles.getSubfolders, SharepointFiles.getFiles.
  rewrite Hrel, Habs. rewrite !append_assoc. split; reflexivity.
Qed.

(** X9: a folder path that starts with [/sites/<siteName>] is put into the
    URL as it is, whatever follows the site name (a slash or not). *)
Theorem folder_path_verbatim
  rs sharepointResourceUrl siteName suffix accessToken :
  let folderPath := "/sites/" +:+ siteName +:+ suffix in
  requests (SharepointFiles.getSubfolders rs sharepointResourceUrl siteName folderPath
              accessToken)
  = [request_for
       (JStr (sharepointResourceUrl +:+ "/sites/" +:+ siteName
              +:+ "/_api/Web/GetFolderByServerRelativeUrl('" +:+ folderPath
              +:+ "')/Folders")) accessToken] /\
  requests (SharepointFiles.getFiles rs sharepointResourceUrl siteName folderPath
              accessToken)
  = [request_for
       (JStr (sharepointResourceUrl +:+ "/sites/" +:+ siteName
              +:+ "/_api/Web/GetFolderByServerRelativeUrl('" +:+ folderPath
              +:+ "')/Files")) accessToken].
Proof.
  cbn zeta.
  assert (Habs : String.prefix ("/sites/" +:+ siteName)
                   ("/sites/" +:+ siteName +:+ suffix) = true).
  { rewrite <- (append_assoc "/sites/" siteName). apply prefix_append. }
  unfold SharepointFiles.getSubfolders, SharepointFiles.getFiles.
  rewrite Habs. split; reflexivity.
Qed.

(** X10: the URL [getListItemAttachmentFileUrl] builds for a file is the
    URL [getListAttachmentFiles] requests for the same item, followed by
    [('<name>')/$value]. *)
Theorem attachment_url_extends_collection_url
  rs sharepointResourceUrl siteName listGuid listItemId accessToken attachmentFilename :
  exists collectionUrl later,
    requests (getListAttachmentFiles rs sharepointResourceUrl siteName listGuid
                listItemId accessToken)
    = request_for (JStr collectionUrl) accessToken :: later /\
    getListItemAttachmentFileUrl sharepointResourceUrl siteName listGuid listItemId
      attachmentFilename
    = collectionUrl +:+ "('" +:+ attachmentFilename +:+ "')/$value".
Proof.
  unfold getListAttachmentFiles, getListItemAttachmentFileUrl.
  destruct (getArrayRecursively_first_request rs
              (JStr (sharepointResourceUrl +:+ "/sites/" +:+ siteName
                     +:+ "/_api/Web/Lists(guid'" +:+ listGuid +:+ "')/Items("
                     +:+ js_ToString listItemId +:+ ")/AttachmentFiles")) accessToken)
    as [later Hreq].
  eexists _, later. split; [exact Hreq|].
  rewrite !append_assoc. reflexivity.
Qed.
End FilesMore.

(** ** The fan-out, further *)

Lemma Promise_all_rejected_member {A} (ps : list (PState A)) e :
  Promise_all ps = Rejected e -> exists i, ps !! i = Some (Rejected e).
Proof.
  induction ps as [|p ps IH]; [discriminate|].
  cbn [Promise_all]. destruct p as [|a|e'].
  - destruct (Promise_all ps) as [|l|e''] eqn:Hps; try discriminate.
    intros H. injection H as ->. destruct (IH eq_refl) as [i Hi]. exists (S i). exact Hi.
  - destruct (Promise_all ps) as [|l|e''] eqn:Hps; try discriminate.
    intros H. injection H as ->. destruct (IH eq_refl) as [i Hi]. exists (S i). exact Hi.
  - intros H. injection H as ->. exists 0%nat. reflexivity.
Qed.

Section FanOutMore.
Import SharepointLists.
Variables sharepointResourceUrl siteName listGuid accessToken : string.

Abbreviation sub := (subFetch sharepointResourceUrl siteName listGuid accessToken).
Abbreviation Inv := (fanout_inv sharepointResourceUrl siteName listGuid accessToken).
Abbreviation deliver_ := (deliver sharepointResourceUrl siteName listGuid accessToken).
Abbreviation attach :=
  (getListWithAttachmentFiles sharepointResourceUrl siteName listGuid accessToken).

(** What one delivery does to the chains and the join. *)
Lemma deliver_shape st i response :
  deliver_ st (i, response) = st \/
  exists c c',
    chains st !! i = Some c /\
    chains (deliver_ st (i, response)) = <[i := c']> (chains st) /\
    ((subPromise c' = subPromise c /\ joined (deliver_ st (i, response)) = joined st) \/
     (sub (listItemId c) (delivered c) = Pending /\
      settled (subPromise c') = true /\
      joined (deliver_ st (i, response))
      = join (joined st) (subPromise <$> <[i := c']> (chains st)) (subPromise c'))).
Proof.
  unfold deliver.
  destruct (sharepointList st !! i) as [item|]; [|left; reflexivity].
  destruct (chains st !! i) as [c|] eqn:Hc; [|left; reflexivity].
  right. exists c.
  fold (sub (listItemId c) (delivered c)).
  fold (sub (listItemId c) (delivered c ++ [response])).
  destruct (sub (listItemId c) (delivered c)) as [|files|e] eqn:Hb.
  - destruct (sub (listItemId c) (delivered c ++ [response])) as [|files|e] eqn:Ha.
    + eexists. split; [reflexivity|]. split; [reflexivity|]. left. split; reflexivity.
    + destruct (set_prop item "AttachmentFiles" (JArr files)) as [item'|e];
        (eexists; split; [reflexivity|]; split; [reflexivity|]; right;
         split; [reflexivity|]; split; reflexivity).
    + eexists. split; [reflexivity|]. split; [reflexivity|]. right.
      split; [reflexivity|]. split; reflexivity.
  - eexists. split; [reflexivity|]. split; [reflexivity|]. left. split; reflexivity.
  - eexists. split; [reflexivity|]. split; [reflexivity|]. left. split; reflexivity.
Qed.

Lemma join_settled j ps p : settled j = true -> join j ps p = j.
Proof. destruct j; [discriminate|reflexivity|reflexivity]. Qed.

Lemma deliver_joined_settled st ev :
  settled (joined st) = true -> joined (deliver_ st ev) = joined st.
Proof.
  intros Hs. destruct ev as [i response].
  destruct (deliver_shape st i response) as [->|(c & c' & _ & _ & [[_ Hj]|(_ & _ & Hj)])];
    [reflexivity|exact Hj|].
  rewrite Hj. apply join_settled. exact Hs.
Qed.

Lemma run_joined_settled st more :
  settled (joined st) = true -> joined (fold_left deliver_ more st) = joined st.
Proof.
  revert st. induction more as [|ev more IH]; intros st Hs; [reflexivity|].
  cbn [fold_left]. rewrite IH; rewrite deliver_joined_settled; auto.
Qed.

(** The state the fan-out is in after a trace. *)
Lemma attach_state listResponses deliveries items chains0 :
  outcome (getList listResponses sharepointResourceUrl siteName listGuid accessToken)
    = Fulfilled items ->
  mapM start_chain items = Normal chains0 ->
  let st := fold_left deliver_ deliveries
              {| sharepointList := items;
                 chains := chains0;
                 joined := Promise_all (subPromise <$> chains0) |} in
  Inv items deliveries st /\
  attach listResponses deliveries
  = then_ (joined st) (fun _ => Normal (sharepointList st)).
Proof.
  intros Hlist Hstart. cbn zeta. split.
  - exact (fanout_inv_run _ _ _ _ items [] deliveries _
             (fanout_inv_start _ _ _ _ items chains0 Hstart)).
  - unfold getListWithAttachmentFiles. rewrite Hlist, Hstart. reflexivity.
Qed.

Lemma start_chain_objects items :
  (forall i item, items !! i = Some item -> is_object item = true) ->
  exists chains0, mapM start_chain items = Normal chains0.
Proof.
  induction items as [|item0 items IH]; intros Hobj; [eexists; reflexivity|].
  destruct IH as [cs Hcs]; [intros i item Hi; exact (Hobj (S i) item Hi)|].
  pose proof (Hobj 0%nat item0 eq_refl) as H0.
  destruct item0; try discriminate H0.
  cbn [mapM]. rewrite Hcs. eexists. reflexivity.
Qed.

Lemma callback_promise_object item o :
  is_object item = true ->
  callback_promise item o = (fun _ => JUndefined) <$> o.
Proof.
  destruct item; try discriminate. intros _. destruct o; reflexivity.
Qed.

(** X11: [getListWithAttachmentFiles] fulfils only after the list and every
    per-item chain have fulfilled, and then element [i] of the result is
    item [i] after the assignment of its files: it never hands out a list
    with an item still waiting. *)
Theorem attach_fulfilled_only_when_complete listResponses deliveries result :
  attach listResponses deliveries = Fulfilled result ->
  exists items,
    outcome (getList listResponses sharepointResourceUrl siteName listGuid accessToken)
      = Fulfilled items /\
    length result = length items /\
    forall i item, items !! i = Some item ->
      exists id files item',
        get_prop item "Id" = Normal id /\
        outcome (getListAttachmentFiles (responses_for i deliveries)
                   sharepointResourceUrl siteName listGuid id accessToken)
          = Fulfilled files /\
        set_prop item "AttachmentFiles" (JArr files) = Normal item' /\
        result !! i = Some item'.
Proof.
  intros Hres.
  destruct (outcome (getList listResponses sharepointResourceUrl siteName listGuid
                       accessToken)) as [|items|e] eqn:Hlist;
    try (unfold getListWithAttachmentFiles in Hres; rewrite Hlist in Hres;
         discriminate Hres).
  destruct (mapM start_chain items) as [chains0|e] eqn:Hstart;
    [|unfold getListWithAttachmentFiles in Hres; rewrite Hlist, Hstart in Hres;
      discriminate Hres].
  destruct (attach_state listResponses deliveries items chains0 Hlist Hstart)
    as [HInv Hattach].
  rewrite Hattach in Hres. clear Hattach.
  set (st := fold_left deliver_ deliveries _) in *.
  destruct HInv as [Hll Hlc Hchain Hj].
  destruct (joined st) as [|l|e] eqn:Hjoined; try discriminate Hres.
  cbn [then_] in Hres. injection Hres as <-.
  exists items. split; [reflexivity|]. split; [exact Hll|].
  intros i item Hitem.
  destruct (Hchain i item Hitem) as (id & Hid & Hc & Hl).
  destruct (Promise_all (subPromise <$> chains st)) as [|l'|e] eqn:Hall;
    try contradiction.
  assert (Hful : is_fulfilled
                   (callback_promise item (sub id (responses_for i deliveries))) = true).
  { eapply (proj1 (Promise_all_fulfilled (subPromise <$> chains st))); [eauto|].
    rewrite list_lookup_fmap, Hc. reflexivity. }
  unfold subFetch in Hful, Hl.
  destruct (outcome (getListAttachmentFiles (responses_for i deliveries)
                       sharepointResourceUrl siteName listGuid id accessToken))
    as [|files|e] eqn:Hsub; try discriminate Hful.
  cbn [callback_promise then_ assigned] in Hful, Hl.
  destruct (set_prop item "AttachmentFiles" (JArr files)) as [item'|e] eqn:Hset;
    [|discriminate Hful].
  exists id, files, item'.
  split; [exact Hid|]. split; [exact Hsub|]. split; [exact Hset|exact Hl].
Qed.

(** X14: an empty list fulfils at once with the empty list, whatever is
    delivered afterwards. *)
Theorem attach_empty_list listResponses deliveries :
  outcome (getList listResponses sharepointResourceUrl siteName listGuid accessToken)
    = Fulfilled [] ->
  attach listResponses deliveries = Fulfilled [].
Proof.
  intros Hlist.
  destruct (attach_state listResponses deliveries [] [] Hlist eq_refl) as [HInv ->].
  set (st := fold_left deliver_ deliveries _) in *.
  destruct HInv as [Hll Hlc _ Hj].
  destruct (chains st) as [|c cs] eqn:Hcs; [|discriminate Hlc].
  destruct (sharepointList st) as [|x xs] eqn:Hxs; [|discriminate Hll].
  cbn in Hj. destruct (joined st); try contradiction. reflexivity.
Qed.

Lemma start_chain_nullish items :
  (exists item, In item items /\ nullish item = true) ->
  exists message, mapM start_chain items = Throw (TypeError message).
Proof.
  induction items as [|item0 items IH]; intros (item & Hin & Hnull); [destruct Hin|].
  cbn [mapM]. destruct item0 as [| | | | | |props];
    try (eexists; reflexivity);
    (destruct Hin as [<-|Hin]; [discriminate Hnull|];
     destruct (IH (ex_intro _ item (conj Hin Hnull))) as [message Hm];
     rewrite Hm; eexists; reflexivity).
Qed.

(** X15: a list that holds [undefined] or [null] (as after a page without
    [results]) makes the [map] callback throw on [.Id]: the operation is
    rejected with a TypeError, whatever is delivered. *)
Theorem attach_nullish_item listResponses deliveries items item :
  outcome (getList listResponses sharepointResourceUrl siteName listGuid accessToken)
    = Fulfilled items ->
  In item items ->
  nullish item = true ->
  exists message, attach listResponses deliveries = Rejected (TypeError message).
Proof.
  intros Hlist Hin Hnull.
  destruct (start_chain_nullish items (ex_intro _ item (conj Hin Hnull)))
    as [message Hm].
  exists message. unfold getListWithAttachmentFiles. rewrite Hlist, Hm. reflexivity.
Qed.

(** X12: the operation is rejected with the reason of the chain that is
    rejected first: if no chain has been rejected before a delivery that
    rejects chain [j] with [e], the result is [Rejected e], whatever is
    delivered after. *)
Theorem attach_first_rejection_wins
  listResponses before j response after items item id e :
  outcome (getList listResponses sharepointResourceUrl siteName listGuid accessToken)
    = Fulfilled items ->
  (forall i it, items !! i = Some it -> is_object it = true) ->
  (forall i it id', items !! i = Some it -> get_prop it "Id" = Normal id' ->
     is_rejected (outcome (getListAttachmentFiles (responses_for i before)
                             sharepointResourceUrl siteName listGuid id' accessToken))
     = false) ->
  items !! j = Some item ->
  get_prop item "Id" = Normal id ->
  outcome (getListAttachmentFiles (responses_for j before)
             sharepointResourceUrl siteName listGuid id accessToken) = Pending ->
  outcome (getListAttachmentFiles (responses_for j before ++ [response])
             sharepointResourceUrl siteName listGuid id accessToken) = Rejected e ->
  attach listResponses (before ++ (j, response) :: after) = Rejected e.
Proof.
  intros Hlist Hobj Hnone Hitem Hid Hpending Hrejected.
  destruct (start_chain_objects items Hobj) as [chains0 Hstart].
  destruct (attach_state listResponses (before ++ (j, response) :: after)
              items chains0 Hlist Hstart) as [_ ->].
  rewrite fold_left_app. cbn [fold_left].
  pose proof (fanout_inv_run sharepointResourceUrl siteName listGuid accessToken
                items [] before _
                (fanout_inv_start sharepointResourceUrl siteName listGuid accessToken
                   items chains0 Hstart)) as HInv1.
  cbn [app] in HInv1.
  set (st1 := fold_left deliver_ before _) in *.
  pose proof (deliver_inv sharepointResourceUrl siteName listGuid accessToken
                items before st1 (j, response) HInv1) as HInv2.
  assert (Hjoined : joined (deliver_ st1 (j, response)) = Rejected e).
  { destruct (inv_chain _ _ _ _ _ _ _ HInv1 j item Hitem) as (id1 & Hid1 & Hc1 & _).
    rewrite Hid in Hid1. injection Hid1 as <-.
    destruct (inv_chain _ _ _ _ _ _ _ HInv2 j item Hitem) as (id2 & Hid2 & Hc2 & _).
    rewrite Hid in Hid2. injection Hid2 as <-.
    rewrite responses_for_snoc, Nat.eqb_refl in Hc2.
    unfold subFetch in Hc1, Hc2. rewrite Hpending in Hc1. rewrite Hrejected in Hc2.
    cbn [callback_promise then_] in Hc1, Hc2.
    assert (Hp1 : joined st1 = Pending).
    { pose proof (inv_joined _ _ _ _ _ _ _ HInv1) as Hj.
      destruct (joined st1) as [|l|e1]; [reflexivity| |].
      - destruct (Promise_all (subPromise <$> chains st1)) as [|l'|e1] eqn:Hall;
          try contradiction.
        assert (is_fulfilled (@Pending JValue) = true) as Habs; [|discriminate Habs].
        eapply (proj1 (Promise_all_fulfilled (subPromise <$> chains st1))); [eauto|].
        rewrite list_lookup_fmap, Hc1. reflexivity.
      - destruct (Promise_all (subPromise <$> chains st1)) as [|l'|e2] eqn:Hall;
          try contradiction.
        destruct (Promise_all_rejected_member _ _ Hall) as [k Hk].
        rewrite list_lookup_fmap in Hk.
        destruct (chains st1 !! k) as [ck|] eqn:Hck; [|discriminate Hk].
        injection Hk as Hk.
        destruct (items !! k) as [it|] eqn:Hit.
        + destruct (inv_chain _ _ _ _ _ _ _ HInv1 k it Hit) as (idk & Hidk & Hck' & _).
          rewrite Hck in Hck'. injection Hck' as ->. cbn [subPromise] in Hk.
          rewrite (callback_promise_object it _ (Hobj k it Hit)) in Hk.
          pose proof (Hnone k it idk Hit Hidk) as Hn. unfold subFetch in Hk.
          destruct (outcome (getListAttachmentFiles (responses_for k before)
                               sharepointResourceUrl siteName listGuid idk accessToken));
            discriminate.
        + apply lookup_ge_None in Hit. apply lookup_lt_Some in Hck.
          rewrite (inv_chains_length _ _ _ _ _ _ _ HInv1) in Hck. lia. }
    destruct (deliver_shape st1 j response)
      as [Heq|(c & c' & Hc & Hchains & [[Hsame _]|(_ & _ & Hj)])].
    - rewrite Heq in Hc2. rewrite Hc1 in Hc2. discriminate Hc2.
    - rewrite Hchains, list_lookup_insert_eq in Hc2
        by (eapply lookup_lt_Some; exact Hc).
      injection Hc2 as ->. rewrite Hc1 in Hc. injection Hc as <-.
      discriminate Hsame.
    - rewrite Hchains, list_lookup_insert_eq in Hc2
        by (eapply lookup_lt_Some; exact Hc).
      injection Hc2 as ->. rewrite Hj, Hp1. reflexivity. }
  rewrite run_joined_settled by (rewrite Hjoined; reflexivity).
  rewrite Hjoined. reflexivity.
Qed.

Lemma deliver_join_sound items deliveries st ev :
  Inv items deliveries st -> join_sound st -> join_sound (deliver_ st ev).
Proof.
  intros HInv Hsound. destruct ev as [i response].
  destruct (deliver_shape st i response)
    as [->|(c & c' & Hc & Hchains & [[Hsame Hj]|(Hpending & _ & Hj)])];
    [exact Hsound| |]; intros e He.
  - rewrite Hj in He. destruct (Hsound e He) as (i0 & c0 & Hc0 & Hrej).
    rewrite Hchains. destruct (decide (i = i0)) as [<-|Hne].
    + exists i, c'. rewrite list_lookup_insert_eq by (eapply lookup_lt_Some; exact Hc).
      split; [reflexivity|]. rewrite Hsame. congruence.
    + exists i0, c0. rewrite list_lookup_insert_ne by exact Hne. auto.
  - rewrite Hchains.
    assert (Hlt : (i < length (chains st))%nat) by (eapply lookup_lt_Some; exact Hc).
    assert (Hall : Promise_all (subPromise <$> <[i := c']> (chains st)) = Rejected e ->
                   exists k ck, <[i := c']> (chains st) !! k = Some ck /\
                                subPromise ck = Rejected e).
    { intros Hpa. destruct (Promise_all_rejected_member _ _ Hpa) as [k Hk].
      rewrite list_lookup_fmap in Hk.
      destruct (<[i := c']> (chains st) !! k) as [ck|] eqn:Hck; [|discriminate Hk].
      injection Hk as Hk. exists k, ck. auto. }
    rewrite Hj in He. destruct (joined st) as [|l|e0] eqn:Hjoined; cbn [join] in He.
    + destruct (subPromise c') as [|v|e'] eqn:Hp; [exact (Hall He)|exact (Hall He)|].
      injection He as ->. exists i, c'. rewrite list_lookup_insert_eq by exact Hlt. auto.
    + discriminate He.
    + injection He as ->. destruct (Hsound e Hjoined) as (i0 & c0 & Hc0 & Hrej).
      exists i0, c0. split; [|exact Hrej].
      rewrite list_lookup_insert_ne; [exact Hc0|]. intros <-.
      rewrite Hc in Hc0. injection Hc0 as <-.
      destruct (items !! i) as [item|] eqn:Hitem.
      * destruct (inv_chain _ _ _ _ _ _ _ HInv i item Hitem) as (id & _ & Hc' & _).
        rewrite Hc in Hc'. injection Hc' as ->.
        cbn [listItemId delivered subPromise] in Hpending, Hrej.
        rewrite Hpending in Hrej. discriminate Hrej.
      * apply lookup_ge_None in Hitem.
        rewrite (inv_chains_length _ _ _ _ _ _ _ HInv) in Hlt. lia.
Qed.

Lemma run_join_sound items deliveries more st :
  Inv items deliveries st -> join_sound st -> join_sound (fold_left deliver_ more st).
Proof.
  revert deliveries st.
  induction more as [|ev more IH]; intros deliveries st HInv Hsound; [exact Hsound|].
  cbn [fold_left]. apply (IH (deliveries ++ [ev])).
  - apply deliver_inv. exact HInv.
  - eapply deliver_join_sound; eauto.
Qed.

(** X13: for a list of objects, a rejection of the operation is the
    rejection of one of its chains, with that chain's reason unchanged. *)
Theorem attach_rejection_comes_from_a_chain listResponses deliveries items e :
  outcome (getList listResponses sharepointResourceUrl siteName listGuid accessToken)
    = Fulfilled items ->
  (forall i it, items !! i = Some it -> is_object it = true) ->
  attach listResponses deliveries = Rejected e ->
  exists j item id,
    items !! j = Some item /\
    get_prop item "Id" = Normal id /\
    outcome (getListAttachmentFiles (responses_for j deliveries)
               sharepointResourceUrl siteName listGuid id accessToken) = Rejected e.
Proof.
  intros Hlist Hobj Hres.
  destruct (start_chain_objects items Hobj) as [chains0 Hstart].
  destruct (attach_state listResponses deliveries items chains0 Hlist Hstart)
    as [HInv Hattach].
  rewrite Hattach in Hres. clear Hattach.
  pose proof (fanout_inv_start sharepointResourceUrl siteName listGuid accessToken
                items chains0 Hstart) as HInv0.
  assert (Hsound0 : join_sound {| sharepointList := items;
                                  chains := chains0;
                                  joined := Promise_all (subPromise <$> chains0) |}).
  { intros e0 He0. cbn [joined chains] in *.
    destruct (Promise_all_rejected_member _ _ He0) as [k Hk].
    rewrite list_lookup_fmap in Hk.
    destruct (chains0 !! k) as [ck|] eqn:Hck; [|discriminate Hk].
    injection Hk as Hk. exists k, ck. auto. }
  pose proof (run_join_sound items [] deliveries _ HInv0 Hsound0) as Hsound.
  set (st := fold_left deliver_ deliveries _) in *.
  destruct (joined st) as [|l|e'] eqn:Hjoined; try discriminate Hres.
  cbn [then_] in Hres. injection Hres as ->.
  destruct (Hsound e Hjoined) as (j & c & Hc & Hrej).
  destruct (items !! j) as [item|] eqn:Hitem.
  - destruct (inv_chain _ _ _ _ _ _ _ HInv j item Hitem) as (id & Hid & Hc' & _).
    rewrite Hc in Hc'. injection Hc' as ->. cbn [subPromise] in Hrej.
    rewrite (callback_promise_object item _ (Hobj j item Hitem)) in Hrej.
    exists j, item, id. split; [exact Hitem|]. split; [exact Hid|].
    unfold subFetch in Hrej.
    destruct (outcome (getListAttachmentFiles (responses_for j deliveries)
                         sharepointResourceUrl siteName listGuid id accessToken))
      as [|files|e0]; try discriminate Hrej.
    injection Hrej as ->. reflexivity.
  - apply lookup_ge_None in Hitem. apply lookup_lt_Some in Hc.
    rewrite (inv_chains_length _ _ _ _ _ _ _ HInv) in Hc. lia.
Qed.
End FanOutMore.

(** ** The token cache, further *)

Section TokenMore.
Import SharepointToken.
Variable sharepointConfig : SharepointSourceConfig.
Variable Date_parse : string -> option Z.

Abbreviation getToken_ := (getToken sharepointConfig Date_parse).
Abbreviation acquire_ := (acquire sharepointConfig).
Abbreviation run_ := (run sharepointConfig Date_parse).

Lemma deref_acquire st : deref (snd (acquire_ st)) (fst (acquire_ st)) = TPending.
Proof.
  unfold acquire, deref. cbn [fst snd promises].
  rewrite lookup_app_r by lia. rewrite Nat.sub_diag. reflexivity.
Qed.

(** The three ways a call of [getToken] can go. *)
Lemma getToken_cases now st :
  (getToken_ now st = (length (promises st),
                       {| tokenRequestPromise := Some (length (promises st));
                          promises := promises st ++ [TPending];
                          acquisitions := acquisitions st ++ [tokenRequest sharepointConfig] |})
   /\ forall p, tokenRequestPromise st = Some p -> deref st p <> TPending) \/
  (exists p, tokenRequestPromise st = Some p /\
             getToken_ now st = (p, st) /\
             usable Date_parse now (deref st p) = true).
Proof.
  unfold getToken.
  destruct (tokenRequestPromise st) as [p|] eqn:Hslot.
  - destruct (deref st p) as [|value|error|] eqn:Hd.
    + right. exists p. rewrite Hslot, Hd. auto.
    + destruct (tokenExpired Date_parse now value) eqn:Hexp.
      * left. split; [reflexivity|]. intros p' Hp'. injection Hp' as <-.
        rewrite Hd. discriminate.
      * right. exists p. rewrite Hslot, Hd. cbn [usable]. rewrite Hexp. auto.
    + left. rewrite Hslot, Hd. split; [reflexivity|].
      intros p' Hp'. injection Hp' as <-. rewrite Hd. discriminate.
    + left. rewrite Hslot, Hd. split; [reflexivity|].
      intros p' Hp'. injection Hp' as <-. rewrite Hd. discriminate.
  - left. rewrite Hslot. split; [reflexivity|]. intros p Hp. discriminate Hp.
Qed.

(** X16: from every state, the promise [getToken] returns is the one it
    leaves in the cache, and it is pending or fulfilled with a token that
    has not expired at the time of the call; never a rejected or cancelled
    one. *)
Theorem getToken_returns_cached_usable now st :
  tokenRequestPromise (snd (getToken_ now st)) = Some (fst (getToken_ now st)) /\
  usable Date_parse now (deref (snd (getToken_ now st)) (fst (getToken_ now st))) = true.
Proof.
  destruct (getToken_cases now st) as [[-> _]|(p & Hslot & -> & Husable)].
  - split; [reflexivity|]. cbn [fst snd].
    change (usable Date_parse now (deref (snd (acquire_ st)) (fst (acquire_ st))) = true).
    rewrite deref_acquire. reflexivity.
  - split; [exact Hslot|exact Husable].
Qed.

(** X17: a second [getToken] at the same instant returns the same promise
    and changes nothing. *)
Theorem getToken_idempotent now st :
  getToken sharepointConfig Date_parse now
    (snd (getToken sharepointConfig Date_parse now st))
  = getToken sharepointConfig Date_parse now st.
Proof.
  destruct (getToken_cases now st) as [[-> _]|(p & Hslot & Heq & Husable)].
  - cbn [snd].
    change (getToken_ now (snd (acquire_ st)) = acquire_ st).
    pose proof (deref_acquire st) as Hd.
    unfold getToken. cbn [acquire snd fst tokenRequestPromise] in *. rewrite Hd.
    cbn [tokenRequestPromise]. rewrite Hd. reflexivity.
  - rewrite Heq. cbn [snd]. exact Heq.
Qed.

(** X18: a cached token whose [expiresOn] does not parse ([Date.parse]
    gives NaN) never expires: [getToken] returns it at any time. *)
Theorem getToken_unparseable_never_expires st p value now :
  tokenRequestPromise st = Some p ->
  promises st !! p = Some (TFulfilled value) ->
  Date_parse (expiresOn value) = None ->
  getToken_ now st = (p, st).
Proof.
  intros Hslot Hp Hnan. unfold getToken.
  assert (Hd : deref st p = TFulfilled value) by (unfold deref; rewrite Hp; reflexivity).
  rewrite Hslot, Hd. unfold tokenExpired. rewrite Hnan, Hslot, Hd. reflexivity.
Qed.

(** X19: [dropToken] only forgets the promise: an acquisition in flight
    stays pending, and the next [getToken] starts a second one beside it. *)
Theorem dropToken_does_not_cancel st p now :
  tokenRequestPromise st = Some p ->
  promises st !! p = Some TPending ->
  exists q st',
    run_ [CallDropToken; CallGetToken now] st = ([q], st') /\
    q <> p /\
    promises st' !! p = Some TPending /\
    promises st' !! q = Some TPending /\
    acquisitions st' = acquisitions st ++ [tokenRequest sharepointConfig].
Proof.
  intros Hslot Hp.
  assert (Hlt : (p < length (promises st))%nat) by (eapply lookup_lt_Some; exact Hp).
  exists (length (promises st)),
    {| tokenRequestPromise := Some (length (promises st));
       promises := promises st ++ [TPending];
       acquisitions := acquisitions st ++ [tokenRequest sharepointConfig] |}.
  split; [reflexivity|]. cbn [promises acquisitions].
  split; [lia|]. split; [|split; [|reflexivity]].
  - rewrite lookup_app_l by exact Hlt. exact Hp.
  - rewrite lookup_app_r by lia. rewrite Nat.sub_diag. reflexivity.
Qed.


Lemma getToken_keeps_one_in_flight now st :
  single_flight st -> single_flight (snd (getToken_ now st)).
Proof.
  intros Hsf.
  destruct (getToken_cases now st) as [[-> Hnot]|(p & _ & -> & _)]; [|exact Hsf].
  cbn [snd]. intros q Hq. cbn [promises tokenRequestPromise] in *.
  destruct (Nat.lt_trichotomy q (length (promises st))) as [Hlt|[->|Hgt]].
  - rewrite lookup_app_l in Hq by exact Hlt.
    pose proof (Hsf q Hq) as Hslot. exfalso. apply (Hnot q Hslot).
    unfold deref. rewrite Hq. reflexivity.
  - reflexivity.
  - rewrite lookup_ge_None_2 in Hq; [discriminate Hq|]. rewrite length_app. cbn. lia.
Qed.

Lemma settle_keeps_one_in_flight p result st :
  single_flight st -> single_flight (settle p result st).
Proof.
  intros Hsf. unfold settle.
  destruct (promises st !! p) as [[| | |]|] eqn:Hp; try exact Hsf;
    destruct result; try exact Hsf;
    (intros q Hq; cbn [promises tokenRequestPromise] in *;
     destruct (decide (p = q)) as [<-|Hne];
     [rewrite list_lookup_insert_eq in Hq by (eapply lookup_lt_Some; exact Hp);
      discriminate Hq
     |rewrite list_lookup_insert_ne in Hq by exact Hne; exact (Hsf q Hq)]).
Qed.

Lemma run_keeps_one_in_flight evs st :
  Forall (fun ev => is_dropToken ev = false) evs ->
  single_flight st ->
  single_flight (snd (run_ evs st)).
Proof.
  intros Hnodrop. revert st.
  induction Hnodrop as [|ev evs Hev _ IH]; intros st Hsf; [exact Hsf|].
  destruct ev as [now| |p result]; cbn [run].
  - pose proof (getToken_keeps_one_in_flight now st Hsf) as Hsf'.
    destruct (getToken_ now st) as [q st1]. cbn [snd] in Hsf'.
    specialize (IH st1 Hsf'). destruct (run_ evs st1) as [ps st2]. exact IH.
  - discriminate Hev.
  - apply IH. apply settle_keeps_one_in_flight. exact Hsf.
Qed.

(** X22: in a trace from the initial state without [dropToken], every
    pending promise is the cached one, so at most one acquisition is in
    flight at any time. *)
Theorem run_single_flight_without_drop evs :
  Forall (fun ev => is_dropToken ev = false) evs ->
  single_flight (snd (run_ evs initial)) /\
  forall q1 q2,
    promises (snd (run_ evs initial)) !! q1 = Some TPending ->
    promises (snd (run_ evs initial)) !! q2 = Some TPending ->
    q1 = q2.
Proof.
  intros Hnodrop.
  assert (Hsf : single_flight (snd (run_ evs initial))).
  { apply run_keeps_one_in_flight; [exact Hnodrop|]. intros q Hq. discriminate Hq. }
  split; [exact Hsf|]. intros q1 q2 H1 H2.
  pose proof (Hsf q1 H1) as E1. pose proof (Hsf q2 H2) as E2. congruence.
Qed.
End TokenMore.

(** ** The further properties at work on the scenario *)

Lemma getArrayRecursively_settles_once_witness :
  outcome (getArrayRecursively (listResponses ++ [RpRejected (RequestError "late")])
             (JStr "https://sp/first") "eyJ0")
  = outcome (getArrayRecursively listResponses (JStr "https://sp/first") "eyJ0") /\
  requests (getArrayRecursively (listResponses ++ [RpRejected (RequestError "late")])
              (JStr "https://sp/first") "eyJ0")
  = requests (getArrayRecursively listResponses (JStr "https://sp/first") "eyJ0").
Proof.
  apply (getArrayRecursively_settles_once listResponses [RpRejected (RequestError "late")]
           (JStr "https://sp/first") "eyJ0").
  reflexivity.
Defined.

Lemma getArrayRecursively_follows_every_pointer_witness :
  (forall l,
     outcome (getArrayRecursively
                (map RpFulfilled [page [item 1 "a"] (Some "https://sp/next")])
                (JStr "https://sp/first") "eyJ0") <> Fulfilled l) /\
  (forall extra, exists later,
     requests (getArrayRecursively
                 (map RpFulfilled [page [item 1 "a"] (Some "https://sp/next")] ++ extra)
                 (JStr "https://sp/first") "eyJ0")
     = map (fun u => request_for u "eyJ0")
         [JStr "https://sp/first"; JStr "https://sp/next"] ++ later).
Proof.
  apply (getArrayRecursively_follows_every_pointer
           [page [item 1 "a"] (Some "https://sp/next")] [JStr "https://sp/next"]
           (JStr "https://sp/first") "eyJ0").
  eapply followed_cons;
    [exact (envelope_page _ (Some "https://sp/next")) | reflexivity | constructor].
Defined.

Lemma getArrayRecursively_merges_any_results_witness :
  outcome (getArrayRecursively
             [RpFulfilled (JObj [("d", JObj [("results", item 1 "a");
                                             ("__next", JStr "https://sp/next")])]);
              RpFulfilled (JObj [("d", JObj [])])]
             (JStr "https://sp/first") "eyJ0")
  = Fulfilled [item 1 "a"; JUndefined].
Proof.
  apply (getArrayRecursively_merges_any_results
           [JObj [("d", JObj [("results", item 1 "a"); ("__next", JStr "https://sp/next")])];
            JObj [("d", JObj [])]]
           [item 1 "a"; JUndefined] [JStr "https://sp/next"] []
           (JStr "https://sp/first") "eyJ0").
  eapply any_next; [eexists; repeat split; reflexivity | reflexivity |].
  eapply any_last; [eexists; repeat split; reflexivity | reflexivity].
Defined.

Lemma callApi_is_first_page_witness :
  outcome (SharepointFiles.callApi listResponses "https://sp/first" "eyJ0")
  = Fulfilled (JArr [item 1 "a"; item 2 "b"]) /\
  outcome (getArrayRecursively listResponses (JStr "https://sp/first") "eyJ0")
  = Fulfilled ([item 1 "a"; item 2 "b"] ++ concat [[item 3 "c"]]) /\
  requests (SharepointFiles.callApi listResponses "https://sp/first" "eyJ0")
  = [request_for (JStr "https://sp/first") "eyJ0"].
Proof.
  apply (callApi_is_first_page
           (page [item 1 "a"; item 2 "b"] (Some "https://sp/next"))
           [page [item 3 "c"] None] [item 1 "a"; item 2 "b"] [[item 3 "c"]]
           [JStr "https://sp/next"] [] "https://sp/first" "eyJ0").
  eapply chain_next;
    [exact (envelope_page _ (Some "https://sp/next")) | reflexivity |].
  eapply chain_last; [exact (envelope_page _ None) | reflexivity].
Defined.

Lemma folder_path_relative_or_absolute_witness :
  SharepointFiles.getSubfolders [] "https://sp" "site" "Shared Documents" "eyJ0"
  = SharepointFiles.getSubfolders [] "https://sp" "site"
      ("/sites/" +:+ "site" +:+ "/" +:+ "Shared Documents") "eyJ0" /\
  SharepointFiles.getFiles [] "https://sp" "site" "Shared Documents" "eyJ0"
  = SharepointFiles.getFiles [] "https://sp" "site"
      ("/sites/" +:+ "site" +:+ "/" +:+ "Shared Documents") "eyJ0".
Proof.
  apply (folder_path_relative_or_absolute [] "https://sp" "site" "Shared Documents" "eyJ0").
  reflexivity.
Defined.

Lemma attach_fulfilled_only_when_complete_witness :
  exists its,
    outcome (getList listResponses "https://sp" "site" "guid" "eyJ0") = Fulfilled its /\
    length [JObj [("Id", JNum 1); ("Title", JStr "a");
                  ("AttachmentFiles", JArr [file "w1.pdf"; file "w2.pdf"])];
            JObj [("Id", JNum 2); ("Title", JStr "b"); ("AttachmentFiles", JArr [])];
            JObj [("Id", JNum 3); ("Title", JStr "c");
                  ("AttachmentFiles", JArr [file "w3.pdf"])]] = length its.
Proof.
  destruct (attach_fulfilled_only_when_complete "https://sp" "site" "guid" "eyJ0"
              listResponses deliveries
              [JObj [("Id", JNum 1); ("Title", JStr "a");
                     ("AttachmentFiles", JArr [file "w1.pdf"; file "w2.pdf"])];
               JObj [("Id", JNum 2); ("Title", JStr "b"); ("AttachmentFiles", JArr [])];
               JObj [("Id", JNum 3); ("Title", JStr "c");
                     ("AttachmentFiles", JArr [file "w3.pdf"])]]
              eq_refl) as (its & Hlist & Hlen & _).
  exists its. split; [exact Hlist|exact Hlen].
Defined.

Lemma attach_empty_list_witness :
  getListWithAttachmentFiles "https://sp" "site" "guid" "eyJ0"
    [RpFulfilled (page [] None)] [(0%nat, RpFulfilled (page [file "w1.pdf"] None))]
  = Fulfilled [].
Proof.
  apply (attach_empty_list "https://sp" "site" "guid" "eyJ0"
           [RpFulfilled (page [] None)] [(0%nat, RpFulfilled (page [file "w1.pdf"] None))]).
  reflexivity.
Defined.

Lemma attach_nullish_item_witness :
  exists message,
    getListWithAttachmentFiles "https://sp" "site" "guid" "eyJ0"
      [RpFulfilled (JObj [("d", JObj [])])] [] = Rejected (TypeError message).
Proof.
  apply (attach_nullish_item "https://sp" "site" "guid" "eyJ0"
           [RpFulfilled (JObj [("d", JObj [])])] [] [JUndefined] JUndefined).
  - reflexivity.
  - left. reflexivity.
  - reflexivity.
Defined.

Lemma attach_first_rejection_wins_witness :
  getListWithAttachmentFiles "https://sp" "site" "guid" "eyJ0" listResponses
    ([(2%nat, RpFulfilled (page [file "w3.pdf"] None))]
     ++ (1%nat, RpRejected (StatusCodeError 503 JNull))
     :: [(0%nat, RpRejected (RequestError "ECONNRESET"))])
  = Rejected (StatusCodeError 503 JNull).
Proof.
  apply (attach_first_rejection_wins "https://sp" "site" "guid" "eyJ0" listResponses
           [(2%nat, RpFulfilled (page [file "w3.pdf"] None))] 1%nat
           (RpRejected (StatusCodeError 503 JNull))
           [(0%nat, RpRejected (RequestError "ECONNRESET"))]
           items (item 2 "b") (JNum 2) (StatusCodeError 503 JNull)).
  - reflexivity.
  - intros [|[|[|i]]] it H; cbn in H; try discriminate H; injection H as <-; reflexivity.
  - intros [|[|[|i]]] it id H Hid; cbn in H; try discriminate H; injection H as <-;
      cbn in Hid; injection Hid as <-; reflexivity.
  - reflexivity.
  - reflexivity.
  - reflexivity.
  - reflexivity.
Defined.

Lemma attach_rejection_comes_from_a_chain_witness :
  exists j it id,
    items !! j = Some it /\
    get_prop it "Id" = Normal id /\
    outcome (getListAttachmentFiles (responses_for j failing_deliveries)
               "https://sp" "site" "guid" id "eyJ0")
    = Rejected (StatusCodeError 503 JNull).
Proof.
  apply (attach_rejection_comes_from_a_chain "https://sp" "site" "guid" "eyJ0"
           listResponses failing_deliveries items (StatusCodeError 503 JNull)).
  - reflexivity.
  - intros [|[|[|i]]] it H; cbn in H; try discriminate H; injection H as <-; reflexivity.
  - reflexivity.
Defined.

Lemma getToken_unparseable_never_expires_witness :
  let odd := {| tokenType := "Bearer"; expiresIn := 3599;
                expiresOn := "next Thursday"; resource := "https://sp";
                accessToken := "eyJ0"; isMRRT := true |} in
  getToken config Date_parse 9999999999999 (cached (TFulfilled odd))
  = (0%nat, cached (TFulfilled odd)).
Proof.
  intros odd.
  apply (getToken_unparseable_never_expires config Date_parse (cached (TFulfilled odd))
           0%nat odd 9999999999999); reflexivity.
Defined.

Lemma dropToken_does_not_cancel_witness :
  exists q st',
    run config Date_parse [CallDropToken; CallGetToken 1466071000000] (cached TPending)
    = ([q], st') /\
    q <> 0%nat /\
    promises st' !! 0%nat = Some TPending /\
    promises st' !! q = Some TPending /\
    acquisitions st' = acquisitions (cached TPending) ++ [tokenRequest config].
Proof.
  apply (dropToken_does_not_cancel config Date_parse (cached TPending) 0%nat
           1466071000000); reflexivity.
Defined.

Lemma run_single_flight_without_drop_witness :
  let evs := [CallGetToken 1466071000000; Settle 0 (TRejected "AADSTS70002");
              CallGetToken 1466071000005; CallGetToken 1466071000009] in
  single_flight (snd (run config Date_parse evs initial)) /\
  forall q1 q2,
    promises (snd (run config Date_parse evs initial)) !! q1 = Some TPending ->
    promises (snd (run config Date_parse evs initial)) !! q2 = Some TPending ->
    q1 = q2.
Proof.
  apply (run_single_flight_without_drop config Date_parse
           [CallGetToken 1466071000000; Settle 0 (TRejected "AADSTS70002");
            CallGetToken 1466071000005; CallGetToken 1466071000009]).
  repeat constructor.
Defined.
